(** * PraxisEn: the near-duplicate pruning pass of [normalization.py]

    A shallow embedding of [normalize_text] and [clean_database] and the
    properties of the pass: normalisation, the stable sort by cleaned text,
    the window scan with its exact and fuzzy criteria, the similarity ratio,
    and the confirmation-gated deletion. *)

From Stdlib Require Import ZArith QArith Lia List Sorting.Sorted String Ascii.
From stdpp Require Import base decidable list sets gmap.

Local Open Scope Z_scope.
Local Open Scope nat_scope.

(* ===================================================================== *)
(** ** Python values *)
(* ===================================================================== *)

(** A Python [str] is a sequence of Unicode code points; [len] counts them
    and comparison is lexicographic on them. *)
Definition codepoint := N.
Definition pystr := list codepoint.

(** ASCII literals of the development, as code point sequences. *)
Fixpoint of_string (s : string) : pystr :=
  match s with
  | EmptyString => []
  | String c r => N_of_ascii c :: of_string r
  end.

(** [a == b] on two [str] values. *)
Definition str_eqb (a b : pystr) : bool := bool_decide (a = b).

(** [a < b] on two [str] values: the first differing code point decides,
    a proper prefix is smaller. *)
Fixpoint str_ltb (a b : pystr) : bool :=
  match a, b with
  | [], [] => false
  | [], _ :: _ => true
  | _ :: _, [] => false
  | x :: a', y :: b' =>
      if (x <? y)%N then true
      else if (y <? x)%N then false
      else str_ltb a' b'
  end.

(* ===================================================================== *)
(** ** [normalize_text] *)
(* ===================================================================== *)

(** The character class [a-z0-9] of the pattern [[^a-z0-9]]. *)
Definition in_class (c : codepoint) : bool :=
  ((97 <=? c) && (c <=? 122) || (48 <=? c) && (c <=? 57))%N.

(** [re.sub(r'[^a-z0-9]', '', s)]: every code point outside the class is
    replaced by the empty string. *)
Definition re_sub_strip (s : pystr) : pystr := List.filter in_class s.

(** Lower-casing of an ASCII code point: only [A-Z] moves. *)
Definition ascii_lower (c : codepoint) : codepoint :=
  if ((65 <=? c) && (c <=? 90))%N then (c + 32)%N else c.

Section Normalizer.

(** [str.lower] maps each code point through Unicode's full lower-case
    mapping, which may yield several code points and, for the capital
    sigma, looks at the surrounding text.  The table is Python's, not the
    repository's: for the code points above ASCII it is a parameter, given
    the text before the code point, the code point, and the text after. *)
Variable unicode_lower : pystr -> codepoint -> pystr -> pystr.

Definition lower_at (before : pystr) (c : codepoint) (after : pystr) : pystr :=
  if (c <? 128)%N then [ascii_lower c] else unicode_lower before c after.

Fixpoint lower_from (before s : pystr) : pystr :=
  match s with
  | [] => []
  | c :: r => lower_at before c r ++ lower_from (before ++ [c]) r
  end.

(** [text.lower()] *)
Definition str_lower (text : pystr) : pystr := lower_from [] text.

(** [normalize_text(text)]; [not text] holds of the empty string (the
    column is declared [TEXT NOT NULL], so no [None] arrives). *)
Definition normalize_text (text : pystr) : pystr :=
  match text with
  | [] => []
  | _ => re_sub_strip (str_lower text)
  end.

End Normalizer.

(* ===================================================================== *)
(** ** [Levenshtein.ratio] *)
(* ===================================================================== *)

(** The edit distance of the [Levenshtein] package, computed as the package
    does, one row of the Wagner-Fischer table at a time.  Insertions and
    deletions cost 1; a substitution costs 2 when [xcost] is set and 1
    otherwise. *)
Definition subst_cost (xcost : bool) (x y : codepoint) : nat :=
  if (x =? y)%N then 0 else if xcost then 2 else 1.

(** The row of the empty string against every suffix of [b]. *)
Fixpoint lev_base_row (b : pystr) : list nat :=
  match b with
  | [] => [0]
  | _ :: b' => length b :: lev_base_row b'
  end.

(** From the row [prev] of a string to the row of that string with [x] put
    in front; entry [j] is the distance to the suffix of [b] at [j]. *)
Fixpoint lev_next_row (xcost : bool) (x : codepoint) (b : pystr)
    (prev : list nat) : list nat :=
  match b, prev with
  | [], up :: _ => [S up]
  | y :: b', up :: prev' =>
      let rest := lev_next_row xcost x b' prev' in
      match prev', rest with
      | diag :: _, lft :: _ =>
          Nat.min (Nat.min (S up) (S lft)) (subst_cost xcost x y + diag) :: rest
      | _, _ => []
      end
  | _, [] => []
  end.

Definition lev_rows (xcost : bool) (a b : pystr) : list nat :=
  foldr (λ x prev, lev_next_row xcost x b prev) (lev_base_row b) a.

Definition lev_edit_distance (xcost : bool) (a b : pystr) : nat :=
  hd 0 (lev_rows xcost a b).

(** [Levenshtein.ratio(a, b)]: with [lensum = len(a) + len(b)] and the
    distance taken with [xcost] set, [(lensum - distance) / lensum], and
    [1.0] when both strings are empty.  The quotient is kept as an exact
    rational; the rounding of the binary floating point division is not part
    of the model. *)
Definition ratio (a b : pystr) : Q :=
  let lensum := length a + length b in
  if lensum =? 0 then 1%Q
  else (Z.of_nat (lensum - lev_edit_distance true a b) # Pos.of_nat lensum)%Q.

(* ===================================================================== *)
(** ** Configuration *)
(* ===================================================================== *)

(** The two tunable constants of the CONFIGURATION block.  Python reads the
    module globals when [clean_database] runs, so they are an input of the
    pass. *)
Record config := Config {
  SIMILARITY_THRESHOLD : Q;
  WINDOW_SIZE : Z
}.

(** The values in the file: [0.90] and [10]. *)
Definition shipped_config : config :=
  {| SIMILARITY_THRESHOLD := (9 # 10)%Q; WINDOW_SIZE := 10%Z |}.

(* ===================================================================== *)
(** ** Step 1 and 2: the working list and its sort *)
(* ===================================================================== *)

(** One dict of [data]: [{'id': .., 'text': .., 'clean': ..}]. *)
Record item := Item {
  item_id : Z;
  item_text : pystr;
  item_clean : pystr
}.

(** A fetched row [(id, english_text)]. *)
Definition db_row := (Z * pystr)%type.

(** [data.sort(key=lambda x: x['clean'])].  [list.sort] is stable and
    compares the keys with [<] only; a stable sort is determined by that, and
    is given here as the insertion of each element, last one first, in front
    of the first element whose key is not smaller. *)
Fixpoint insert_by_clean (x : item) (l : list item) : list item :=
  match l with
  | [] => [x]
  | y :: l' =>
      if str_ltb (item_clean y) (item_clean x)
      then y :: insert_by_clean x l'
      else x :: y :: l'
  end.

Definition sort_by_clean (data : list item) : list item :=
  foldr insert_by_clean [] data.

(* ===================================================================== *)
(** ** Step 3: the window scan *)
(* ===================================================================== *)

(** What the body of the inner [for] does next. *)
Inductive flow := NextNeighbor | Break.

(** Lines 82-101: the two criteria applied to the current row and a
    neighbour that is not yet marked. *)
Definition compare_rows (cfg : config) (current_row next_row : item)
    (ids_to_delete : gset Z) : gset Z * flow :=
  if str_eqb (item_clean current_row) (item_clean next_row) then
    if length (item_text next_row) <=? length (item_text current_row)
    then (ids_to_delete ∪ {[item_id next_row]}, NextNeighbor)
    else (ids_to_delete ∪ {[item_id current_row]}, Break)
  else
    if Qle_bool (SIMILARITY_THRESHOLD cfg) (ratio (item_clean current_row) (item_clean next_row))
    then (ids_to_delete ∪ {[item_id next_row]}, NextNeighbor)
    else (ids_to_delete, NextNeighbor).

(** Lines 70-101: [for j in ...], over the values of [j] still to come. *)
Fixpoint neighbors (cfg : config) (data : list item) (i : nat)
    (current_row : item) (js : list nat) (ids_to_delete : gset Z) : gset Z :=
  match js with
  | [] => ids_to_delete
  | j :: js' =>
      match data !! (i + j) with
      | None => ids_to_delete
      | Some next_row =>
          if bool_decide (item_id next_row ∈ ids_to_delete)
          then neighbors cfg data i current_row js' ids_to_delete
          else
            match compare_rows cfg current_row next_row ids_to_delete with
            | (ids', NextNeighbor) => neighbors cfg data i current_row js' ids'
            | (ids', Break) => ids'
            end
      end
  end.

(** [range(1, WINDOW_SIZE + 1)]: empty when [WINDOW_SIZE <= 0]. *)
Definition window (cfg : config) : list nat := seq 1 (Z.to_nat (WINDOW_SIZE cfg)).

(** Lines 63-101: the body of the outer [for], at position [i]. *)
Definition scan_at (cfg : config) (data : list item) (ids_to_delete : gset Z)
    (i : nat) : gset Z :=
  match data !! i with
  | None => ids_to_delete
  | Some current_row =>
      if bool_decide (item_id current_row ∈ ids_to_delete)
      then ids_to_delete
      else neighbors cfg data i current_row (window cfg) ids_to_delete
  end.

(** Lines 56-101: [ids_to_delete = set()] and the loop over [range(len(data))]. *)
Definition scan (cfg : config) (data : list item) : gset Z :=
  foldl (scan_at cfg data) ∅ (seq 0 (length data)).

(* ===================================================================== *)
(** ** Step 4: the gated deletion *)
(* ===================================================================== *)

(** [range(0, n, batch_size)] *)
Definition batch_starts (n batch_size : nat) : list nat :=
  map (λ q, q * batch_size) (seq 0 ((n + (batch_size - 1)) / batch_size)).

(** The slices [id_list[k:k+batch_size]], one per [DELETE] statement. *)
Definition batches (id_list : list Z) (batch_size : nat) : list (list Z) :=
  map (λ k, take batch_size (drop k id_list)) (batch_starts (length id_list) batch_size).

(** [DELETE FROM sentences WHERE id IN (batch)] on the table. *)
Definition delete_in (store : list db_row) (batch : list Z) : list db_row :=
  List.filter (λ r : db_row, negb (bool_decide (r.1 ∈ batch))) store.

(** What a run leaves behind: the rows fetched, the set computed, whether the
    prompt was shown, the [DELETE] statements executed with their
    parameters, and the table afterwards. *)
Record run := Run {
  fetched : list db_row;
  ids_to_delete : gset Z;
  prompted : bool;
  executed : list (list Z);
  store_after : list db_row
}.

(** A call either returns or raises. *)
Inductive exn := ConfigurationError.
Inductive pyresult (A : Type) := Returns (a : A) | Raises (e : exn).
Arguments Returns {A} a.
Arguments Raises {A} e.

Section Pass.

Variable unicode_lower : pystr -> codepoint -> pystr -> pystr.

(** Lines 43-49. *)
Definition build_data (rows : list db_row) : list item :=
  map (λ r : db_row,
         {| item_id := r.1; item_text := r.2;
            item_clean := normalize_text unicode_lower r.2 |}) rows.

(** Lines 36-101: from the fetched rows to the set of ids. *)
Definition find_duplicates (cfg : config) (rows : list db_row) : gset Z :=
  scan cfg (sort_by_clean (build_data rows)).

(** The whole of [clean_database], on the table [store] and with
    [user_input] the line typed at the prompt if it is shown. *)
Definition pass (cfg : config) (store : list db_row) (user_input : pystr) : run :=
  let rows := store in
  let ids := find_duplicates cfg rows in
  let count := size ids in
  if 0 <? count then
    if str_eqb user_input (of_string "YES") then
      let stmts := batches (elements ids) 900 in
      {| fetched := rows; ids_to_delete := ids; prompted := true;
         executed := stmts; store_after := foldl delete_in store stmts |}
    else
      {| fetched := rows; ids_to_delete := ids; prompted := true;
         executed := []; store_after := store |}
  else
    {| fetched := rows; ids_to_delete := ids; prompted := false;
       executed := []; store_after := store |}.

(** [clean_database] has no [raise] and checks neither constant. *)
Definition clean_database (cfg : config) (store : list db_row)
    (user_input : pystr) : pyresult run :=
  Returns (pass cfg store user_input).

End Pass.

(** A case table that leaves the code points above ASCII as they are; it
    serves to run the pass on ASCII examples, where the table is not
    consulted. *)
Definition plain_lower : pystr -> codepoint -> pystr -> pystr := λ _ c _, [c].

(* ===================================================================== *)
(** ** The vocabulary of the properties *)
(* ===================================================================== *)

(** [x] may stand before [y]: the key of [y] is not smaller. *)
Definition clean_le (x y : item) : Prop :=
  str_ltb (item_clean y) (item_clean x) = false.

(** The rows with a given key. *)
Definition with_clean (k : pystr) (l : list item) : list item :=
  List.filter (λ x, str_eqb (item_clean x) k) l.

(** The order the specification describes: by cleaned text, and by id among
    equal cleaned texts. *)
Definition clean_then_id_le (x y : item) : Prop :=
  str_ltb (item_clean x) (item_clean y) = true
  ∨ (item_clean x = item_clean y ∧ (item_id x ≤ item_id y)%Z).

(** The two criteria, as a relation between a row and a later one. *)
Definition is_match (cfg : config) (earlier later : item) : Prop :=
  item_clean earlier = item_clean later
  ∨ (SIMILARITY_THRESHOLD cfg <= ratio (item_clean earlier) (item_clean later))%Q.

(** Every id in the set belongs to a row that meets one of the criteria with
    another row at most [WINDOW_SIZE] positions away. *)
Definition marked_locally (cfg : config) (data : list item) (ids : gset Z) : Prop :=
  ∀ x, x ∈ ids →
    ∃ p q a b, data !! p = Some a ∧ data !! q = Some b ∧ p < q
               ∧ (Z.of_nat q - Z.of_nat p ≤ WINDOW_SIZE cfg)%Z
               ∧ is_match cfg a b ∧ (x = item_id a ∨ x = item_id b).

(** The ids of the working list. *)
Definition ids_of (data : list item) : gset Z := list_to_set (map item_id data).

(** The set stays inside the ids of the list and never takes all of them. *)
Definition spares_one (data : list item) (ids : gset Z) : Prop :=
  ids ⊆ ids_of data ∧ ∃ r, r ∈ data ∧ item_id r ∉ ids.

(** The constants are in the range the specification asks for. *)
Definition config_in_range (cfg : config) : Prop :=
  (0 <= SIMILARITY_THRESHOLD cfg)%Q ∧ (SIMILARITY_THRESHOLD cfg <= 1)%Q
  ∧ (0 < WINDOW_SIZE cfg)%Z.

(** The Wagner-Fischer recurrence itself, on the two strings. *)
Fixpoint lev_rec (xcost : bool) (a b : pystr) : nat :=
  match a with
  | [] => length b
  | x :: a' =>
      (fix against (b : pystr) : nat :=
         match b with
         | [] => length a
         | y :: b' =>
             Nat.min (Nat.min (S (lev_rec xcost a' b)) (S (against b')))
                     (subst_cost xcost x y + lev_rec xcost a' b')
         end) b
  end.

(** The length of a longest common subsequence. *)
Fixpoint lcs (a b : pystr) : nat :=
  match a with
  | [] => 0
  | x :: a' =>
      (fix against (b : pystr) : nat :=
         match b with
         | [] => 0
         | y :: b' =>
             if (x =? y)%N then S (lcs a' b')
             else Nat.max (lcs a' b) (against b')
         end) b
  end.

(** The ratio as the specification words it: one minus the unit-cost
    distance over the longer length, at least 1. *)
Definition spec_ratio (a b : pystr) : Q :=
  (1 - (Z.of_nat (lev_edit_distance false a b)
        # Pos.of_nat (Nat.max (Nat.max (length a) (length b)) 1)))%Q.

(** The suffixes of a string, longest first. *)
Fixpoint suffixes (b : pystr) : list pystr :=
  match b with
  | [] => [[]]
  | _ :: b' => b :: suffixes b'
  end.

(** Every code point of the text is an ASCII one. *)
Definition is_ascii (t : pystr) : Prop := Forall (λ c, (c < 128)%N) t.

(** Every marked row has an unmarked row with a text at least as long. *)
Definition longer_kept (data : list item) (ids : gset Z) : Prop :=
  ∀ r, r ∈ data → item_id r ∈ ids →
    ∃ r', r' ∈ data ∧ (item_id r' ∉ ids)
          ∧ length (item_text r) ≤ length (item_text r').


(* ===================================================================== *)
(** ** Tables and settings for the examples *)
(* ===================================================================== *)

Definition love_dog : item :=
  {| item_id := 2; item_text := of_string "I love dog";
     item_clean := of_string "ilovedog" |}.
Definition love_dogs : item :=
  {| item_id := 1; item_text := of_string "I love dogs";
     item_clean := of_string "ilovedogs" |}.

Definition cat : item :=
  {| item_id := 1; item_text := of_string "cat"; item_clean := of_string "cat" |}.
Definition dog : item :=
  {| item_id := 2; item_text := of_string "dog"; item_clean := of_string "dog" |}.

Definition no_pain_rows : list db_row :=
  [(1%Z, of_string "No pain, no gain!"); (2%Z, of_string "no pain no gain")].
Definition dogs_rows : list db_row :=
  [(1%Z, of_string "I love dogs"); (2%Z, of_string "I love dog");
   (3%Z, of_string "completely unrelated text")].
Definition tie_rows : list db_row :=
  [(2%Z, of_string "a"); (1%Z, of_string "a")].
Definition cat_dog_rows : list db_row :=
  [(1%Z, of_string "cat"); (2%Z, of_string "dog")].

Definition dogma_rows : list db_row :=
  [(1%Z, of_string "I love dogs"); (2%Z, of_string "I love dog");
   (3%Z, of_string "I love dogma")].

Definition negative_threshold : config :=
  {| SIMILARITY_THRESHOLD := (-1 # 1)%Q; WINDOW_SIZE := 10%Z |}.

Definition window_of_one : config :=
  {| SIMILARITY_THRESHOLD := (9 # 10)%Q; WINDOW_SIZE := 1%Z |}.
Definition no_window : config :=
  {| SIMILARITY_THRESHOLD := (9 # 10)%Q; WINDOW_SIZE := 0%Z |}.

(* ===================================================================== *)
(** * Properties *)
(* ===================================================================== *)

(* ===================================================================== *)
(** ** The normaliser *)
(* ===================================================================== *)

Section NormalizerFacts.

Variable unicode_lower : pystr -> codepoint -> pystr -> pystr.

Lemma in_class_ascii c : in_class c = true → (c <? 128)%N = true.
Proof.
  unfold in_class. rewrite orb_true_iff, !andb_true_iff, !N.leb_le.
  intros H. apply N.ltb_lt. lia.
Qed.

Lemma in_class_lower c : in_class c = true → ascii_lower c = c.
Proof.
  unfold in_class, ascii_lower.
  rewrite orb_true_iff, !andb_true_iff, !N.leb_le. intros H.
  destruct ((65 <=? c) && (c <=? 90))%N eqn:E; [|done].
  apply andb_prop in E as [E1 E2]. apply N.leb_le in E1, E2. lia.
Qed.

Lemma lower_from_in_class before s :
  forallb in_class s = true → lower_from unicode_lower before s = s.
Proof.
  revert before. induction s as [|c r IH]; intros before H; [done|].
  simpl in H. apply andb_prop in H as [Hc Hr].
  simpl. unfold lower_at. rewrite (in_class_ascii _ Hc), (in_class_lower _ Hc).
  simpl. by rewrite IH.
Qed.

Lemma re_sub_strip_in_class s : forallb in_class (re_sub_strip s) = true.
Proof.
  unfold re_sub_strip. apply forallb_forall. intros c Hc.
  by apply filter_In in Hc as [_ ?].
Qed.

Lemma re_sub_strip_fixed s : forallb in_class s = true → re_sub_strip s = s.
Proof.
  unfold re_sub_strip. induction s as [|c r IH]; [done|].
  simpl. intros H. apply andb_prop in H as [Hc Hr]. rewrite Hc. by rewrite IH.
Qed.

Lemma normalize_text_in_class text : forallb in_class (normalize_text unicode_lower text) = true.
Proof. destruct text; [done|]. apply re_sub_strip_in_class. Qed.

(** C9: normalisation is idempotent: applying [normalize_text] to its own
    output returns that output, for every text. *)
Theorem normalize_text_idempotent (x : pystr) :
  normalize_text unicode_lower (normalize_text unicode_lower x)
  = normalize_text unicode_lower x.
Proof.
  pose proof (normalize_text_in_class x) as Hk.
  destruct (normalize_text unicode_lower x) as [|c r] eqn:E; [done|].
  unfold normalize_text, str_lower.
  rewrite (lower_from_in_class [] _ Hk).
  by apply re_sub_strip_fixed.
Qed.

End NormalizerFacts.

(* ===================================================================== *)
(** ** Comparing strings *)
(* ===================================================================== *)

Lemma str_eqb_eq a b : str_eqb a b = true ↔ a = b.
Proof. unfold str_eqb. apply bool_decide_eq_true. Qed.

Lemma str_eqb_refl a : str_eqb a a = true.
Proof. by apply str_eqb_eq. Qed.

Lemma str_eqb_neq a b : a ≠ b → str_eqb a b = false.
Proof. unfold str_eqb. apply bool_decide_eq_false_2. Qed.

Lemma str_ltb_irrefl a : str_ltb a a = false.
Proof. induction a as [|x a IH]; [done|]. simpl. by rewrite N.ltb_irrefl. Qed.

Lemma str_ltb_trans a b c :
  str_ltb a b = true → str_ltb b c = true → str_ltb a c = true.
Proof.
  revert b c. induction a as [|x a IH]; intros [|y b] [|z c]; simpl; try done.
  destruct (N.ltb_spec x y), (N.ltb_spec y x), (N.ltb_spec y z),
    (N.ltb_spec z y), (N.ltb_spec x z), (N.ltb_spec z x);
    try done; try lia.
  apply IH.
Qed.

Lemma str_ltb_connex a b :
  str_ltb a b = false → str_ltb b a = false → a = b.
Proof.
  revert b. induction a as [|x a IH]; intros [|y b]; simpl; try done.
  destruct (N.ltb_spec x y), (N.ltb_spec y x); try done; try lia.
  intros Hab Hba. f_equal; [lia | by apply IH].
Qed.

(* ===================================================================== *)
(** ** The sort by cleaned text *)
(* ===================================================================== *)

Lemma clean_le_trans x y z : clean_le x y → clean_le y z → clean_le x z.
Proof.
  unfold clean_le. intros Hxy Hyz.
  destruct (str_ltb (item_clean z) (item_clean x)) eqn:Hzx; [|done].
  destruct (str_ltb (item_clean x) (item_clean y)) eqn:Hxy'.
  - by rewrite (str_ltb_trans _ _ _ Hzx Hxy') in Hyz.
  - rewrite (str_ltb_connex _ _ Hxy' Hxy) in Hzx. congruence.
Qed.

Lemma clean_le_of_lt x y :
  str_ltb (item_clean x) (item_clean y) = true → clean_le x y.
Proof.
  unfold clean_le. intros Hlt.
  destruct (str_ltb (item_clean y) (item_clean x)) eqn:Hyx; [|done].
  pose proof (str_ltb_trans _ _ _ Hlt Hyx) as Hxx.
  by rewrite str_ltb_irrefl in Hxx.
Qed.

Lemma insert_by_clean_perm x l : insert_by_clean x l ≡ₚ x :: l.
Proof.
  induction l as [|y l IH]; simpl; [done|].
  destruct (str_ltb _ _); [|done].
  rewrite IH. apply Permutation_swap.
Qed.

Lemma sort_by_clean_perm data : sort_by_clean data ≡ₚ data.
Proof.
  induction data as [|x data IH]; simpl; [done|].
  rewrite insert_by_clean_perm. by rewrite IH.
Qed.

Lemma insert_by_clean_sorted x l :
  StronglySorted clean_le l → StronglySorted clean_le (insert_by_clean x l).
Proof.
  induction 1 as [|y l Hs IH Hall]; simpl.
  - repeat constructor.
  - destruct (str_ltb (item_clean y) (item_clean x)) eqn:Hyx.
    + constructor; [done|].
      rewrite insert_by_clean_perm. constructor; [|done].
      by apply clean_le_of_lt.
    + constructor; [by constructor|].
      constructor; [done|].
      eapply Forall_impl; [exact Hall|].
      intros z Hz. by apply (clean_le_trans x y z).
Qed.

Lemma sort_by_clean_sorted data : StronglySorted clean_le (sort_by_clean data).
Proof.
  induction data as [|x data IH]; simpl; [constructor|].
  by apply insert_by_clean_sorted.
Qed.

Lemma insert_by_clean_stable k x l :
  with_clean k (insert_by_clean x l) = with_clean k (x :: l).
Proof.
  unfold with_clean. induction l as [|y l IH]; [done|].
  simpl. destruct (str_ltb (item_clean y) (item_clean x)) eqn:Hyx; [|done].
  simpl. rewrite IH. simpl.
  destruct (str_eqb (item_clean y) k) eqn:Hy; [|done].
  destruct (str_eqb (item_clean x) k) eqn:Hx; [|done].
  apply str_eqb_eq in Hy, Hx. rewrite Hy, Hx in Hyx.
  by rewrite str_ltb_irrefl in Hyx.
Qed.

Lemma sort_by_clean_stable k data :
  with_clean k (sort_by_clean data) = with_clean k data.
Proof.
  induction data as [|x data IH]; [done|].
  simpl. rewrite insert_by_clean_stable.
  unfold with_clean in *. simpl. by rewrite IH.
Qed.

Lemma StronglySorted_lookup {A} (R : A → A → Prop) l i k a b :
  StronglySorted R l → l !! i = Some a → l !! k = Some b → i < k → R a b.
Proof.
  intros Hs. revert i k. induction Hs as [|c l Hs IH Hall]; intros i k Ha Hb Hik.
  - done.
  - destruct k as [|k]; [lia|]. destruct i as [|i].
    + simpl in Ha, Hb. injection Ha as ->.
      rewrite Forall_forall in Hall. apply Hall.
      by eapply list_elem_of_lookup_2.
    + simpl in Ha, Hb. apply (IH i k); auto. lia.
Qed.

(** In a list in ascending order of cleaned text, the rows between two rows
    with the same cleaned text have that cleaned text too. *)
Lemma same_clean_between data p m q x z y :
  StronglySorted clean_le data →
  data !! p = Some x → data !! m = Some z → data !! q = Some y →
  p < m < q → item_clean x = item_clean y → item_clean z = item_clean x.
Proof.
  intros Hs Hx Hz Hy [Hpm Hmq] Hxy.
  pose proof (StronglySorted_lookup _ _ _ _ _ _ Hs Hx Hz Hpm) as Hxz.
  pose proof (StronglySorted_lookup _ _ _ _ _ _ Hs Hz Hy Hmq) as Hzy.
  unfold clean_le in *. rewrite <- Hxy in Hzy.
  by apply str_ltb_connex.
Qed.

Section SortFacts.

Variable unicode_lower : pystr -> codepoint -> pystr -> pystr.

Lemma build_data_ids rows : map item_id (build_data unicode_lower rows) = map fst rows.
Proof. unfold build_data. rewrite map_map. by apply map_ext. Qed.

Lemma sorted_ids_perm rows :
  map item_id (sort_by_clean (build_data unicode_lower rows)) ≡ₚ map fst rows.
Proof.
  rewrite <- build_data_ids.
  change (item_id <$> sort_by_clean (build_data unicode_lower rows)
          ≡ₚ item_id <$> build_data unicode_lower rows).
  by rewrite sort_by_clean_perm.
Qed.

(** C4, as the code has it: the working list is a rearrangement of the
    fetched rows in ascending order of cleaned text, and rows with the same
    cleaned text keep the order in which they were fetched; the id plays no
    part in the order. *)
Theorem sort_is_stable_by_clean (rows : list db_row) :
  sort_by_clean (build_data unicode_lower rows) ≡ₚ build_data unicode_lower rows
  ∧ StronglySorted clean_le (sort_by_clean (build_data unicode_lower rows))
  ∧ ∀ k, with_clean k (sort_by_clean (build_data unicode_lower rows))
         = with_clean k (build_data unicode_lower rows).
Proof.
  split; [apply sort_by_clean_perm|].
  split; [apply sort_by_clean_sorted|].
  intros k. apply sort_by_clean_stable.
Qed.

End SortFacts.

(* ===================================================================== *)
(** ** The similarity ratio *)
(* ===================================================================== *)

Lemma lev_rec_nil_r xcost a : lev_rec xcost a [] = length a.
Proof. by destruct a. Qed.

Lemma lev_rec_cons xcost x a y b :
  lev_rec xcost (x :: a) (y :: b)
  = Nat.min (Nat.min (S (lev_rec xcost a (y :: b))) (S (lev_rec xcost (x :: a) b)))
            (subst_cost xcost x y + lev_rec xcost a b).
Proof. done. Qed.

Lemma lev_base_row_spec xcost b : lev_base_row b = map (lev_rec xcost []) (suffixes b).
Proof. induction b as [|y b IH]; [done|]. simpl. by rewrite IH. Qed.

Lemma lev_next_row_spec xcost x a b :
  lev_next_row xcost x b (map (lev_rec xcost a) (suffixes b))
  = map (lev_rec xcost (x :: a)) (suffixes b).
Proof.
  induction b as [|y b IH].
  - simpl. by rewrite lev_rec_nil_r.
  - cbn [suffixes map lev_next_row]. rewrite IH.
    destruct b as [|z b]; cbn [suffixes map]; by rewrite lev_rec_cons.
Qed.

Lemma lev_rows_spec xcost a b :
  lev_rows xcost a b = map (lev_rec xcost a) (suffixes b).
Proof.
  unfold lev_rows. induction a as [|x a IH]; simpl.
  - apply (lev_base_row_spec xcost).
  - rewrite IH. apply lev_next_row_spec.
Qed.

(** The table computes the recurrence. *)
Lemma lev_edit_distance_rec xcost a b : lev_edit_distance xcost a b = lev_rec xcost a b.
Proof.
  unfold lev_edit_distance. rewrite lev_rows_spec. by destruct b.
Qed.

Lemma lcs_nil_r a : lcs a [] = 0.
Proof. by destruct a. Qed.

Lemma lcs_cons x a y b :
  lcs (x :: a) (y :: b)
  = if (x =? y)%N then S (lcs a b) else Nat.max (lcs a (y :: b)) (lcs (x :: a) b).
Proof. done. Qed.

(** One more code point in front of either string adds at most one to the
    common subsequence, and takes nothing away. *)
Lemma lcs_step n : ∀ a b, length a + length b ≤ n →
  (∀ x, lcs a b ≤ lcs (x :: a) b ≤ S (lcs a b))
  ∧ (∀ y, lcs a b ≤ lcs a (y :: b) ≤ S (lcs a b)).
Proof.
  induction n as [n IH] using lt_wf_ind. intros a b Hn. split.
  - intros x. destruct b as [|y b]; [rewrite !lcs_nil_r; lia|].
    rewrite lcs_cons.
    assert (length a + length b < n) as Hlt by (simpl in Hn; lia).
    destruct (IH _ Hlt a b (le_n _)) as [Ha Hb].
    specialize (Ha x). specialize (Hb y).
    destruct (x =? y)%N; lia.
  - intros y. destruct a as [|x a]; [simpl; lia|].
    rewrite lcs_cons.
    assert (length a + length b < n) as Hlt by (simpl in Hn; lia).
    destruct (IH _ Hlt a b (le_n _)) as [Ha Hb].
    specialize (Ha x). specialize (Hb y).
    destruct (x =? y)%N; lia.
Qed.

Lemma lcs_cons_l x a b : lcs a b ≤ lcs (x :: a) b ≤ S (lcs a b).
Proof. by apply (lcs_step (length a + length b) a b). Qed.

Lemma lcs_cons_r a y b : lcs a b ≤ lcs a (y :: b) ≤ S (lcs a b).
Proof. by apply (lcs_step (length a + length b) a b). Qed.

(** With substitutions at cost 2 the distance counts the code points outside
    a longest common subsequence. *)
Lemma lev_rec_lcs a b : lev_rec true a b + 2 * lcs a b = length a + length b.
Proof.
  revert b. induction a as [|x a IHa]; intros b; [simpl; lia|].
  induction b as [|y b IHb]; [rewrite lev_rec_nil_r, lcs_nil_r; simpl; lia|].
  rewrite lev_rec_cons, lcs_cons.
  pose proof (IHa (y :: b)) as H1. pose proof (IHa b) as H0.
  pose proof (lcs_cons_l x a b) as Hl. pose proof (lcs_cons_r a y b) as Hr.
  pose proof (lcs_cons_l x a (y :: b)) as Hl'.
  pose proof (lcs_cons_r (x :: a) y b) as Hr'.
  unfold subst_cost. simpl length in *.
  destruct (x =? y)%N; lia.
Qed.

Lemma lcs_refl a : lcs a a = length a.
Proof.
  induction a as [|x a IH]; [done|].
  rewrite lcs_cons, N.eqb_refl, IH. done.
Qed.

Lemma pos_of_nat_Z n : n ≠ 0 → Z.pos (Pos.of_nat n) = Z.of_nat n.
Proof. intros Hn. rewrite <- (positive_nat_Z (Pos.of_nat n)), Nat2Pos.id; done. Qed.

(** [Levenshtein.ratio] is twice the length of a longest common subsequence
    over the sum of the lengths: one minus the insert-and-delete distance
    over that sum. *)
Lemma ratio_lcs a b :
  ratio a b
  = if length a + length b =? 0 then 1%Q
    else (Z.of_nat (2 * lcs a b) # Pos.of_nat (length a + length b))%Q.
Proof.
  unfold ratio. destruct (length a + length b =? 0); [done|].
  rewrite lev_edit_distance_rec.
  pose proof (lev_rec_lcs a b). do 2 f_equal. lia.
Qed.

Lemma ratio_refl a : (ratio a a == 1)%Q.
Proof.
  rewrite ratio_lcs. destruct (length a + length a =? 0) eqn:Hz; [done|].
  apply Nat.eqb_neq in Hz. rewrite lcs_refl.
  unfold Qeq. simpl. rewrite Z.mul_1_r.
  rewrite <- (positive_nat_Z (Pos.of_nat _)), Nat2Pos.id by done. lia.
Qed.

Lemma ratio_le_1 a b : (ratio a b <= 1)%Q.
Proof.
  unfold ratio. destruct (length a + length b =? 0) eqn:Hz; [apply Qle_refl|].
  apply Nat.eqb_neq in Hz.
  unfold Qle. simpl. rewrite Z.mul_1_r.
  rewrite <- (positive_nat_Z (Pos.of_nat _)), Nat2Pos.id by done. lia.
Qed.

Lemma ratio_ge_0 a b : (0 <= ratio a b)%Q.
Proof.
  unfold ratio. destruct (length a + length b =? 0); [done|].
  unfold Qle. simpl. lia.
Qed.

(** C3, as the code has it: the ratio is one minus the distance over the sum
    of the two lengths, and 1 when both strings are empty, where the
    distance counts insertions and deletions only (a substitution counts
    for two): the code points of both strings outside a longest common
    subsequence. *)
Theorem ratio_is_indel_similarity (a b : pystr) :
  (ratio a b ==
   if length a + length b =? 0 then 1
   else 1 - (Z.of_nat (length a + length b - 2 * lcs a b)
             # Pos.of_nat (length a + length b)))%Q.
Proof.
  rewrite ratio_lcs. destruct (length a + length b =? 0) eqn:Hz; [done|].
  apply Nat.eqb_neq in Hz.
  pose proof (lev_rec_lcs a b) as Hd.
  unfold Qeq, Qminus, Qplus, Qopp. cbn [Qnum Qden].
  rewrite Pos2Z.inj_mul, !pos_of_nat_Z by done.
  rewrite !Nat2Z.inj_sub, !Nat2Z.inj_mul, !Nat2Z.inj_add by lia. simpl Z.of_nat.
  change (Z.pos 1) with 1%Z. ring.
Qed.

(* ===================================================================== *)
(** ** The two criteria of the inner loop *)
(* ===================================================================== *)

Lemma add_self (ids : gset Z) a : a ∈ ids ∪ {[a]}.
Proof. apply elem_of_union. right. by apply elem_of_singleton. Qed.

Lemma add_other (ids : gset Z) a x : x ≠ a → x ∈ ids ∪ {[a]} ↔ x ∈ ids.
Proof.
  intros Hne. rewrite elem_of_union, elem_of_singleton. tauto.
Qed.

Lemma add_subseteq (ids S : gset Z) a : ids ⊆ S → a ∈ S → ids ∪ {[a]} ⊆ S.
Proof.
  intros Hsub Ha x [Hx | Hx]%elem_of_union; [by apply Hsub|].
  apply elem_of_singleton in Hx. by subst.
Qed.

Lemma add_not_elem (ids : gset Z) a x : x ∉ ids → x ≠ a → x ∉ ids ∪ {[a]}.
Proof. intros Hout Hne Hin. by apply add_other in Hin. Qed.

(** One round of the inner loop on a neighbour that is in range and not yet
    marked. *)
Lemma neighbors_live cfg data i current_row j js next_row ids :
  data !! (i + j) = Some next_row →
  item_id next_row ∉ ids →
  neighbors cfg data i current_row (j :: js) ids =
    match compare_rows cfg current_row next_row ids with
    | (ids', NextNeighbor) => neighbors cfg data i current_row js ids'
    | (ids', Break) => ids'
    end.
Proof.
  intros Hnext Hlive. simpl. rewrite Hnext.
  by rewrite bool_decide_eq_false_2.
Qed.

Lemma neighbors_break cfg data i current_row j js ids :
  data !! (i + j) = None →
  neighbors cfg data i current_row (j :: js) ids = ids.
Proof. intros Hout. simpl. by rewrite Hout. Qed.

Lemma neighbors_past_end cfg data i current_row n k ids :
  length data ≤ i + k →
  neighbors cfg data i current_row (seq k n) ids = ids.
Proof.
  intros Hlen. destruct n as [|n]; [done|].
  apply neighbors_break. apply lookup_ge_None. lia.
Qed.

Lemma compare_rows_cases cfg current_row next_row ids :
  compare_rows cfg current_row next_row ids = (ids ∪ {[item_id next_row]}, NextNeighbor)
  ∨ compare_rows cfg current_row next_row ids = (ids ∪ {[item_id current_row]}, Break)
  ∨ compare_rows cfg current_row next_row ids = (ids, NextNeighbor).
Proof.
  unfold compare_rows.
  destruct (str_eqb _ _);
    [destruct (length (item_text next_row) <=? length (item_text current_row))
    | destruct (Qle_bool _ _)]; auto.
Qed.

Lemma compare_rows_grows cfg a b (ids : gset Z) : ids ⊆ (compare_rows cfg a b ids).1.
Proof.
  destruct (compare_rows_cases cfg a b ids) as [-> | [-> | ->]]; simpl;
    try done; apply union_subseteq_l.
Qed.

Lemma neighbors_grows cfg data i current_row js (ids : gset Z) :
  ids ⊆ neighbors cfg data i current_row js ids.
Proof.
  revert ids. induction js as [|j js IH]; intros ids; simpl; [done|].
  destruct (data !! (i + j)) as [next_row|]; [|done].
  case_bool_decide; [apply IH|].
  pose proof (compare_rows_grows cfg current_row next_row ids) as Hstep.
  destruct (compare_rows _ _ _ _) as [ids' [|]]; simpl in Hstep; [|done].
  etrans; [exact Hstep | apply IH].
Qed.


Lemma add_swap (ids : gset Z) a b : ids ∪ {[a]} ∪ {[b]} = ids ∪ {[b]} ∪ {[a]}.
Proof. apply set_eq. intros x. rewrite !elem_of_union. tauto. Qed.

(** The two criteria look at the rows only: with one more id in the set they
    decide the same and add the same. *)
Lemma compare_rows_add cfg current_row next_row (ids : gset Z) n :
  compare_rows cfg current_row next_row (ids ∪ {[n]})
  = ((compare_rows cfg current_row next_row ids).1 ∪ {[n]},
     (compare_rows cfg current_row next_row ids).2).
Proof.
  unfold compare_rows.
  destruct (str_eqb (item_clean current_row) (item_clean next_row));
    [destruct (length (item_text next_row) <=? length (item_text current_row))
    | destruct (Qle_bool (SIMILARITY_THRESHOLD cfg)
                  (ratio (item_clean current_row) (item_clean next_row)))];
    simpl; try done; by rewrite add_swap.
Qed.

(** An id that no neighbour still to come carries passes through the rest of
    the inner loop untouched: marking it before or after gives the same set. *)
Lemma neighbors_add cfg data i current_row js (ids : gset Z) n :
  (∀ k r, k ∈ js → data !! (i + k) = Some r → item_id r ≠ n) →
  neighbors cfg data i current_row js (ids ∪ {[n]})
  = neighbors cfg data i current_row js ids ∪ {[n]}.
Proof.
  revert ids. induction js as [|j js IH]; intros ids Hfresh; simpl; [done|].
  assert (∀ k r, k ∈ js → data !! (i + k) = Some r → item_id r ≠ n) as Hrest
    by (intros k r Hk; apply Hfresh; by right).
  destruct (data !! (i + j)) as [next_row|] eqn:Hnext; [|done].
  assert (item_id next_row ≠ n) as Hne by (apply (Hfresh j); [left | done]).
  rewrite (bool_decide_ext _ (item_id next_row ∈ ids)) by (by apply add_other).
  case_bool_decide; [by apply IH|].
  rewrite compare_rows_add.
  destruct (compare_rows cfg current_row next_row ids) as [ids' [|]]; simpl;
    [by apply IH | done].
Qed.

(** The inner loop adds the id of the current row or of a neighbour it is
    given, and nothing else. *)
Lemma neighbors_adds_only cfg data i current_row js (ids : gset Z) x :
  x ∈ neighbors cfg data i current_row js ids →
  x ∈ ids ∨ x = item_id current_row
  ∨ ∃ k r, k ∈ js ∧ data !! (i + k) = Some r ∧ x = item_id r.
Proof.
  revert ids. induction js as [|j js IH]; intros ids; simpl; [by left|].
  assert (∀ ids' : gset Z,
            x ∈ neighbors cfg data i current_row js ids' →
            x ∈ ids' ∨ x = item_id current_row
            ∨ ∃ k r, k ∈ j :: js ∧ data !! (i + k) = Some r ∧ x = item_id r) as IH'.
  { intros ids' Hin. destruct (IH ids' Hin) as [H | [H | (k & r & Hk & Hr & Hx)]];
      [by left | right; by left |].
    right; right. exists k, r. split; [by right | done]. }
  destruct (data !! (i + j)) as [next_row|] eqn:Hnext; [|by left].
  case_bool_decide; [apply IH'|].
  assert (∀ ids' : gset Z, x ∈ ids' ∪ {[item_id next_row]} →
            x ∈ ids' ∨ x = item_id current_row
            ∨ ∃ k r, k ∈ j :: js ∧ data !! (i + k) = Some r ∧ x = item_id r) as Hnew.
  { intros ids' [Hin | Hin]%elem_of_union; [by left|].
    apply elem_of_singleton in Hin. right; right.
    exists j, next_row. split; [left | done]. }
  destruct (compare_rows_cases cfg current_row next_row ids) as [-> | [-> | ->]].
  - intros Hin. destruct (IH' _ Hin) as [H' | H']; [by apply Hnew | by right].
  - intros [Hin | Hin]%elem_of_union; [by left|].
    apply elem_of_singleton in Hin. right; by left.
  - apply IH'.
Qed.

(** C2: on a judged pair with different cleaned texts, a ratio that reaches
    the threshold (equality included) puts the neighbour's id into the set
    the loop returns, and the loop goes on with the remaining neighbours of
    the same row; a ratio below the threshold adds nothing and the loop goes
    on as well.  When no neighbour still to come carries the neighbour's id
    (ids are the table's primary key), the set returned is the one the
    remaining neighbours give plus, exactly on a match, the neighbour's id:
    the neighbour's id is in it if and only if the ratio reaches the
    threshold, and the judging never marks the current row. *)
Theorem fuzzy_match_branch cfg data i current_row j js next_row ids :
  data !! (i + j) = Some next_row →
  item_id next_row ∉ ids →
  item_clean current_row ≠ item_clean next_row →
  ((SIMILARITY_THRESHOLD cfg
    <= ratio (item_clean current_row) (item_clean next_row))%Q →
   neighbors cfg data i current_row (j :: js) ids
   = neighbors cfg data i current_row js (ids ∪ {[item_id next_row]})
   ∧ item_id next_row ∈ neighbors cfg data i current_row (j :: js) ids)
  ∧ ((ratio (item_clean current_row) (item_clean next_row)
      < SIMILARITY_THRESHOLD cfg)%Q →
     neighbors cfg data i current_row (j :: js) ids
     = neighbors cfg data i current_row js ids)
  ∧ (item_id current_row ≠ item_id next_row →
     (∀ k r, k ∈ js → data !! (i + k) = Some r → item_id r ≠ item_id next_row) →
     (∀ x, x ∈ neighbors cfg data i current_row (j :: js) ids
           ↔ x ∈ neighbors cfg data i current_row js ids
             ∨ (x = item_id next_row
                ∧ (SIMILARITY_THRESHOLD cfg
                   <= ratio (item_clean current_row) (item_clean next_row))%Q))
     ∧ (item_id next_row ∈ neighbors cfg data i current_row (j :: js) ids
        ↔ (SIMILARITY_THRESHOLD cfg
           <= ratio (item_clean current_row) (item_clean next_row))%Q)
     ∧ (item_id current_row ∈ neighbors cfg data i current_row (j :: js) ids
        ↔ item_id current_row ∈ neighbors cfg data i current_row js ids)).
Proof.
  intros Hnext Hlive Hclean.
  rewrite (neighbors_live _ _ _ _ _ _ _ _ Hnext Hlive).
  unfold compare_rows. rewrite (str_eqb_neq _ _ Hclean).
  split; [|split].
  - intros Hle. rewrite (proj2 (Qle_bool_iff _ _) Hle).
    split; [done|]. apply neighbors_grows, add_self.
  - intros Hlt. destruct (Qle_bool _ _) eqn:Hr; [|done].
    apply Qle_bool_iff in Hr. exfalso. by apply (Qlt_not_le _ _ Hlt).
  - intros Hcur Hfresh.
    assert (item_id next_row ∉ neighbors cfg data i current_row js ids) as Hnot.
    { intros Hin.
      apply neighbors_adds_only in Hin as [H | [H | (k & r & Hk & Hr & Hx)]];
        [done | by apply Hcur | by apply (Hfresh k r)]. }
    destruct (Qle_bool _ _) eqn:Hr.
    + apply Qle_bool_iff in Hr. rewrite neighbors_add by done.
      split; [|split].
      * intros x. rewrite elem_of_union, elem_of_singleton. tauto.
      * split; [done | intros _; apply add_self].
      * by apply add_other.
    + assert (¬ (SIMILARITY_THRESHOLD cfg
                 <= ratio (item_clean current_row) (item_clean next_row))%Q) as Hno.
      { intros Hle. apply Qle_bool_iff in Hle. congruence. }
      split; [|split]; [intros x | |]; tauto.
Qed.

(* ===================================================================== *)
(** ** The window *)
(* ===================================================================== *)

Lemma elem_of_window cfg j :
  j ∈ window cfg ↔ 1 ≤ j ∧ (Z.of_nat j ≤ WINDOW_SIZE cfg)%Z.
Proof.
  unfold window. rewrite list_elem_of_In, in_seq. lia.
Qed.

Lemma window_positive cfg : Forall (λ j, 0 < j) (window cfg).
Proof.
  unfold window. apply Forall_forall. intros j Hj.
  apply list_elem_of_In, in_seq in Hj. lia.
Qed.


Lemma scan_at_live cfg data ids i current_row :
  data !! i = Some current_row →
  item_id current_row ∉ ids →
  scan_at cfg data ids i = neighbors cfg data i current_row (window cfg) ids.
Proof. intros Hcur Hlive. unfold scan_at. rewrite Hcur. by rewrite bool_decide_eq_false_2. Qed.

Lemma scan_at_marked cfg data ids i current_row :
  data !! i = Some current_row →
  item_id current_row ∈ ids →
  scan_at cfg data ids i = ids.
Proof. intros Hcur Hm. unfold scan_at. rewrite Hcur. by rewrite bool_decide_eq_true_2. Qed.

Lemma scan_empty_window cfg data : (WINDOW_SIZE cfg ≤ 0)%Z → scan cfg data = ∅.
Proof.
  intros HW. unfold scan.
  assert (∀ ids i, scan_at cfg data ids i = ids) as Hstep.
  { intros ids i. unfold scan_at, window.
    replace (Z.to_nat (WINDOW_SIZE cfg)) with 0 by lia.
    destruct (data !! i); [|done]. by case_bool_decide. }
  generalize (seq 0 (length data)). intros idxs.
  induction idxs as [|i idxs IH]; [done|]. simpl. by rewrite Hstep.
Qed.

(** A judgment marks a row only on the strength of a row within the window. *)
Lemma compare_rows_marked_locally cfg data i j current_row next_row ids :
  data !! i = Some current_row → data !! (i + j) = Some next_row →
  1 ≤ j → (Z.of_nat j ≤ WINDOW_SIZE cfg)%Z →
  marked_locally cfg data ids →
  marked_locally cfg data (compare_rows cfg current_row next_row ids).1.
Proof.
  intros Hcur Hnext Hj1 Hj2 Hinv.
  assert (∀ x, is_match cfg current_row next_row →
               x = item_id current_row ∨ x = item_id next_row →
               ∃ p q a b, data !! p = Some a ∧ data !! q = Some b ∧ p < q
                 ∧ (Z.of_nat q - Z.of_nat p ≤ WINDOW_SIZE cfg)%Z
                 ∧ is_match cfg a b ∧ (x = item_id a ∨ x = item_id b)) as Hnew.
  { intros x Hm Hx. exists i, (i + j), current_row, next_row.
    repeat split; try done; lia. }
  unfold compare_rows.
  destruct (str_eqb _ _) eqn:Heq.
  - apply str_eqb_eq in Heq.
    destruct (length (item_text next_row) <=? length (item_text current_row));
      simpl; intros x [Hx | Hx]%elem_of_union; try (by apply Hinv);
      apply elem_of_singleton in Hx; apply Hnew; [by left | by right | by left | by left].
  - destruct (Qle_bool _ _) eqn:Hle; simpl; [|done].
    apply Qle_bool_iff in Hle.
    intros x [Hx | Hx]%elem_of_union; [by apply Hinv|].
    apply elem_of_singleton in Hx. apply Hnew; [by right | by right].
Qed.

Lemma neighbors_marked_locally cfg data i current_row js ids :
  data !! i = Some current_row →
  Forall (λ j, 1 ≤ j ∧ (Z.of_nat j ≤ WINDOW_SIZE cfg)%Z) js →
  marked_locally cfg data ids →
  marked_locally cfg data (neighbors cfg data i current_row js ids).
Proof.
  intros Hcur Hjs. revert ids.
  induction Hjs as [|j js [Hj1 Hj2] Hjs IH]; intros ids Hinv; simpl; [done|].
  destruct (data !! (i + j)) as [next_row|] eqn:Hnext; [|done].
  case_bool_decide; [by apply IH|].
  pose proof (compare_rows_marked_locally cfg data i j current_row next_row ids
                Hcur Hnext Hj1 Hj2 Hinv) as Hstep.
  destruct (compare_rows _ _ _ _) as [ids' [|]]; [by apply IH | done].
Qed.

(** The scan marks a row only when it meets one of the two criteria with a
    row at most [WINDOW_SIZE] positions away from it. *)
Lemma scan_marked_locally cfg data : marked_locally cfg data (scan cfg data).
Proof.
  unfold scan.
  assert (marked_locally cfg data ∅) as H0 by (intros x Hx; by apply not_elem_of_empty in Hx).
  revert H0. generalize (∅ : gset Z). generalize (seq 0 (length data)).
  intros idxs. induction idxs as [|i idxs IH]; intros ids Hinv; simpl; [done|].
  apply IH. unfold scan_at.
  destruct (data !! i) as [current_row|] eqn:Hcur; [|done].
  case_bool_decide; [done|].
  apply neighbors_marked_locally; [done | | done].
  apply Forall_forall. intros j Hj. by apply elem_of_window.
Qed.

(** The scan of a list of two rows with the same cleaned text. *)
Lemma scan_pair cfg (x y : item) :
  (1 ≤ WINDOW_SIZE cfg)%Z →
  item_clean x = item_clean y →
  scan cfg [x; y]
  = {[ if length (item_text x) <? length (item_text y)
       then item_id x else item_id y ]}.
Proof.
  intros HW Hclean. unfold scan.
  change (seq 0 (length [x; y])) with [0; 1]. cbn [foldl].
  assert (scan_at cfg [x; y] ∅ 0
          = {[ if length (item_text x) <? length (item_text y)
               then item_id x else item_id y ]}) as ->.
  { rewrite (scan_at_live cfg [x; y] ∅ 0 x) by (done || set_solver).
    unfold window.
    destruct (Z.to_nat (WINDOW_SIZE cfg)) as [|n] eqn:HWn; [lia|].
    cbn [seq].
    rewrite (neighbors_live cfg [x; y] 0 x 1 (seq 2 n) y ∅) by (done || set_solver).
    unfold compare_rows. rewrite Hclean, str_eqb_refl.
    destruct (Nat.ltb_spec (length (item_text x)) (length (item_text y))).
    - rewrite (proj2 (Nat.leb_gt _ _)) by lia. by rewrite union_empty_l_L.
    - rewrite (proj2 (Nat.leb_le _ _)) by lia.
      rewrite (neighbors_past_end cfg [x; y] 0 x n 2) by (simpl; lia).
      by rewrite union_empty_l_L. }
  match goal with |- scan_at _ _ ?X _ = _ => destruct (decide (item_id y ∈ X)) as [Hy|Hy] end.
  - by rewrite (scan_at_marked cfg [x; y] _ 1 y).
  - rewrite (scan_at_live cfg [x; y] _ 1 y) by done.
    unfold window. apply (neighbors_past_end cfg [x; y] 1 y). simpl. lia.
Qed.

(* ===================================================================== *)
(** ** What the scan can put into the set *)
(* ===================================================================== *)

Lemma elem_of_ids_of data r : r ∈ data → item_id r ∈ ids_of data.
Proof.
  intros Hr. unfold ids_of. apply elem_of_list_to_set.
  change (map item_id data) with (item_id <$> data).
  by apply list_elem_of_fmap_2.
Qed.

Lemma distinct_positions data i k x y :
  NoDup (map item_id data) → data !! i = Some x → data !! k = Some y →
  i ≠ k → item_id x ≠ item_id y.
Proof.
  intros Hnd Hx Hy Hne Heq. apply Hne.
  apply (NoDup_lookup _ _ _ (item_id x) Hnd).
  - change (map item_id data) with (item_id <$> data).
    by rewrite list_lookup_fmap, Hx.
  - change (map item_id data) with (item_id <$> data).
    by rewrite list_lookup_fmap, Hy, Heq.
Qed.

Lemma neighbors_spares_one cfg data i current_row js ids :
  NoDup (map item_id data) →
  data !! i = Some current_row →
  Forall (λ j, 0 < j) js →
  ids ⊆ ids_of data →
  item_id current_row ∉ ids →
  spares_one data (neighbors cfg data i current_row js ids).
Proof.
  intros Hnd Hcur Hjs. revert ids.
  induction Hjs as [|j js Hj Hjs IH]; intros ids Hsub Hlive; simpl.
  { split; [done|]. exists current_row. split; [|done].
    by eapply list_elem_of_lookup_2. }
  destruct (data !! (i + j)) as [next_row|] eqn:Hnext.
  2:{ split; [done|]. exists current_row. split; [|done].
      by eapply list_elem_of_lookup_2. }
  assert (item_id current_row ≠ item_id next_row) as Hne
    by (eapply distinct_positions; eauto; lia).
  assert (next_row ∈ data) as Hin by (by eapply list_elem_of_lookup_2).
  assert (current_row ∈ data) as Hcin by (by eapply list_elem_of_lookup_2).
  pose proof (elem_of_ids_of _ _ Hin) as Hnid.
  pose proof (elem_of_ids_of _ _ Hcin) as Hcid.
  case_bool_decide as Hmarked; [by apply IH|].
  destruct (compare_rows_cases cfg current_row next_row ids) as [-> | [-> | ->]].
  - apply IH; [by apply add_subseteq | by apply add_not_elem].
  - split; [by apply add_subseteq|]. exists next_row. split; [done|].
    by apply add_not_elem.
  - by apply IH.
Qed.

Lemma scan_at_spares_one cfg data ids i :
  NoDup (map item_id data) →
  spares_one data ids → spares_one data (scan_at cfg data ids i).
Proof.
  intros Hnd Hinv. unfold scan_at.
  destruct (data !! i) as [current_row|] eqn:Hcur; [|done].
  case_bool_decide as Hmarked; [done|].
  apply neighbors_spares_one; auto using window_positive. apply Hinv.
Qed.

Lemma scan_spares_one cfg data :
  data ≠ [] → NoDup (map item_id data) → spares_one data (scan cfg data).
Proof.
  intros Hne Hnd. unfold scan.
  assert (spares_one data ∅) as H0.
  { split; [set_solver|]. destruct data as [|r data]; [done|].
    exists r. split; [left | set_solver]. }
  revert H0. generalize (∅ : gset Z). generalize (seq 0 (length data)).
  intros idxs. induction idxs as [|i idxs IH]; intros ids Hinv; simpl; [done|].
  apply IH. by apply scan_at_spares_one.
Qed.

Lemma spares_one_subset data ids : spares_one data ids → ids ⊂ ids_of data.
Proof.
  intros [Hsub (r & Hr & Hout)]. split; [done|].
  intros Hall. apply Hout, Hall. by apply elem_of_ids_of.
Qed.

(* ===================================================================== *)
(** ** The set computed from a table *)
(* ===================================================================== *)

Section PassFacts.

Variable unicode_lower : pystr -> codepoint -> pystr -> pystr.


(** With a threshold of at most 1 the rows between two rows with the same
    cleaned text cannot all stay below the threshold: the next row already
    has the same cleaned text, hence the ratio 1. *)
Lemma equal_keys_have_no_fillers cfg (rows : list db_row) p q x y :
  let data := sort_by_clean (build_data unicode_lower rows) in
  (SIMILARITY_THRESHOLD cfg <= 1)%Q →
  data !! p = Some x → data !! q = Some y → S p < q →
  item_clean x = item_clean y →
  ¬ (∀ m z, p < m < q → data !! m = Some z →
       (ratio (item_clean x) (item_clean z) < SIMILARITY_THRESHOLD cfg)%Q).
Proof.
  intros data Hthr Hx Hy Hpq Hclean Hbetween.
  destruct (lookup_lt_is_Some_2 data (S p)) as [z Hz].
  { apply lookup_lt_Some in Hy. lia. }
  pose proof (Hbetween (S p) z ltac:(lia) Hz) as Hlow.
  assert (item_clean z = item_clean x) as Hzx.
  { apply (same_clean_between data p (S p) q x z y); try done; try lia.
    apply sort_by_clean_sorted. }
  rewrite Hzx in Hlow.
  apply (Qlt_irrefl (SIMILARITY_THRESHOLD cfg)).
  eapply Qle_lt_trans; [|exact Hlow].
  eapply Qle_trans; [exact Hthr|].
  rewrite ratio_refl. apply Qle_refl.
Qed.

(** C6: for two rows whose texts have the same cleaned text, and a window of
    at least one neighbour, the computed set is the single id of the row
    with the strictly shorter text, and of the row fetched second when the
    texts are equally long; the other row's id, when different, is not in
    the set. *)
Theorem two_rows_same_clean cfg (r1 r2 : db_row) :
  (1 ≤ WINDOW_SIZE cfg)%Z →
  normalize_text unicode_lower r1.2 = normalize_text unicode_lower r2.2 →
  let shorter := if length r1.2 <? length r2.2 then r1.1 else r2.1 in
  let longer := if length r1.2 <? length r2.2 then r2.1 else r1.1 in
  find_duplicates unicode_lower cfg [r1; r2] = {[ shorter ]}
  ∧ (r1.1 ≠ r2.1 → longer ∉ find_duplicates unicode_lower cfg [r1; r2]).
Proof.
  intros HW Hclean shorter longer.
  assert (find_duplicates unicode_lower cfg [r1; r2] = {[ shorter ]}) as HD.
  { unfold find_duplicates, build_data. simpl. rewrite Hclean, str_ltb_irrefl.
    by rewrite scan_pair. }
  split; [done|].
  intros Hne. rewrite HD. unfold shorter, longer.
  destruct (length r1.2 <? length r2.2); set_solver.
Qed.

(** C10: on a non-empty table with pairwise distinct ids the computed set is
    a strict subset of the ids of the table: at least one row is kept. *)
Theorem deletion_set_strict_subset cfg (rows : list db_row) :
  rows ≠ [] →
  NoDup (map fst rows) →
  find_duplicates unicode_lower cfg rows ⊂ list_to_set (map fst rows).
Proof.
  intros Hne Hnd. unfold find_duplicates.
  set (data := sort_by_clean (build_data unicode_lower rows)).
  assert (ids_of data = list_to_set (map fst rows)) as <-.
  { unfold ids_of, data. apply list_to_set_perm_L, sorted_ids_perm. }
  apply spares_one_subset, scan_spares_one.
  - intros Hnil. apply Hne.
    assert (length (map fst rows) = 0) as Hlen.
    { rewrite <- (Permutation_length (sorted_ids_perm unicode_lower rows)).
      fold data. by rewrite Hnil. }
    rewrite length_map in Hlen. by destruct rows.
  - unfold data. by rewrite sorted_ids_perm.
Qed.

End PassFacts.

(* ===================================================================== *)
(** ** The deletion step *)
(* ===================================================================== *)

Lemma batch_starts_cover n b : 0 < b → n ≤ ((n + (b - 1)) / b) * b.
Proof.
  intros Hb.
  pose proof (Nat.div_mod_eq (n + (b - 1)) b) as Hdm.
  pose proof (Nat.mod_upper_bound (n + (b - 1)) b) as Hmod.
  nia.
Qed.

Lemma batches_prefix (l : list Z) b m :
  concat (map (λ k, take b (drop k l)) (map (λ q, q * b) (seq 0 m)))
  = take (m * b) l.
Proof.
  induction m as [|m IH]; [done|].
  rewrite seq_S, !map_app, concat_app, IH. simpl.
  rewrite app_nil_r, take_take_drop. f_equal. lia.
Qed.

(** The slices, put end to end, are the list. *)
Lemma concat_batches (l : list Z) b : 0 < b → concat (batches l b) = l.
Proof.
  intros Hb. unfold batches, batch_starts.
  rewrite batches_prefix. apply take_ge. by apply batch_starts_cover.
Qed.

Lemma batches_nonempty (l : list Z) b : 0 < b → l ≠ [] → batches l b ≠ [].
Proof.
  intros Hb Hl Hnil. apply Hl.
  rewrite <- (concat_batches l b Hb). by rewrite Hnil.
Qed.

Lemma delete_in_twice store b1 b2 :
  delete_in (delete_in store b1) b2 = delete_in store (b1 ++ b2).
Proof.
  unfold delete_in. induction store as [|r store IH]; [done|].
  simpl. case_bool_decide as H1; simpl.
  - case_bool_decide as H12; [done|].
    exfalso. apply H12, elem_of_app. by left.
  - case_bool_decide as H2; case_bool_decide as H12; simpl.
    + done.
    + exfalso. apply H12, elem_of_app. by right.
    + exfalso. apply elem_of_app in H12 as [?|?]; contradiction.
    + by rewrite IH.
Qed.

Lemma delete_in_nil store : delete_in store [] = store.
Proof.
  unfold delete_in. induction store as [|r store IH]; [done|].
  cbn [List.filter]. rewrite IH.
  by rewrite bool_decide_eq_false_2 by apply not_elem_of_nil.
Qed.

(** Executing the statements one after the other deletes the rows whose id
    is a parameter of any of them. *)
Lemma foldl_delete_in store stmts :
  foldl delete_in store stmts = delete_in store (concat stmts).
Proof.
  revert store. induction stmts as [|b stmts IH]; intros store; simpl.
  - by rewrite delete_in_nil.
  - by rewrite IH, delete_in_twice.
Qed.

Section Deletion.

Variable unicode_lower : pystr -> codepoint -> pystr -> pystr.

(** C8: [DELETE] statements are executed exactly when the computed set is
    not empty and the line typed is [YES]; they then remove the rows whose
    id is in the set and no other.  On any other line nothing is executed
    and the table is as it was. *)
Theorem deletion_needs_confirmation cfg (store : list db_row) (user_input : pystr) :
  let r := pass unicode_lower cfg store user_input in
  (executed r ≠ [] ↔
     size (ids_to_delete r) ≠ 0 ∧ user_input = of_string "YES")
  ∧ (executed r ≠ [] →
     store_after r
     = List.filter (λ row : db_row, negb (bool_decide (row.1 ∈ ids_to_delete r))) store)
  ∧ (user_input ≠ of_string "YES" → executed r = [] ∧ store_after r = store)
  ∧ (size (ids_to_delete r) = 0 → executed r = [] ∧ store_after r = store).
Proof.
  unfold pass.
  set (ids := find_duplicates unicode_lower cfg store).
  destruct (Nat.ltb_spec 0 (size ids)) as [Hpos|Hzero].
  - destruct (str_eqb user_input (of_string "YES")) eqn:Hyes; simpl.
    + apply str_eqb_eq in Hyes.
      assert (batches (elements ids) 900 ≠ []) as Hne.
      { apply batches_nonempty; [lia|]. intros Hnil.
        unfold size, set_size in Hpos. simpl in Hpos.
        rewrite Hnil in Hpos. simpl in Hpos. lia. }
      repeat split; try done; try lia.
      intros _. rewrite foldl_delete_in, concat_batches by lia.
      unfold delete_in. apply filter_ext. intros row.
      f_equal. apply bool_decide_ext. apply elem_of_elements.
    + assert (user_input ≠ of_string "YES") as Hno.
      { intros Heq. apply str_eqb_eq in Heq. congruence. }
      repeat split; try done. by intros [_ ?].
  - simpl. repeat split; try done. intros [? _]. lia.
Qed.

(** C7, as the code has it: no constant is checked.  The pass always
    returns, having fetched every row of the table.  With a window size of
    0 or less no pair is compared: the set is empty and the table is left as
    it was.  With a threshold above 1 a pair with different cleaned texts is
    never a match, and with a threshold of 0 or less it always is. *)
Theorem configuration_is_not_checked cfg (store : list db_row) (user_input : pystr) :
  clean_database unicode_lower cfg store user_input
  = Returns (pass unicode_lower cfg store user_input)
  ∧ fetched (pass unicode_lower cfg store user_input) = store
  ∧ ((WINDOW_SIZE cfg ≤ 0)%Z →
     ids_to_delete (pass unicode_lower cfg store user_input) = ∅
     ∧ store_after (pass unicode_lower cfg store user_input) = store)
  ∧ (∀ current_row next_row ids,
       item_clean current_row ≠ item_clean next_row →
       ((1 < SIMILARITY_THRESHOLD cfg)%Q →
        compare_rows cfg current_row next_row ids = (ids, NextNeighbor))
       ∧ ((SIMILARITY_THRESHOLD cfg <= 0)%Q →
          compare_rows cfg current_row next_row ids
          = (ids ∪ {[item_id next_row]}, NextNeighbor))).
Proof.
  split; [done|]. split.
  { unfold pass. destruct (0 <? _); [|done]. by destruct (str_eqb user_input _). }
  split.
  - intros HW. unfold pass, find_duplicates.
    rewrite scan_empty_window by done. by rewrite size_empty.
  - intros current_row next_row ids Hne. unfold compare_rows.
    rewrite (str_eqb_neq _ _ Hne). split; intros Hthr.
    + destruct (Qle_bool _ _) eqn:Hle; [|done].
      apply Qle_bool_iff in Hle.
      pose proof (ratio_le_1 (item_clean current_row) (item_clean next_row)) as H1.
      exfalso. apply (Qlt_irrefl 1).
      eapply Qlt_le_trans; [exact Hthr|]. by eapply Qle_trans.
    + destruct (Qle_bool _ _) eqn:Hle; [done|].
      assert (Qle_bool (SIMILARITY_THRESHOLD cfg)
                (ratio (item_clean current_row) (item_clean next_row)) = true) as Ht.
      { apply Qle_bool_iff. eapply Qle_trans; [exact Hthr|]. apply ratio_ge_0. }
      congruence.
Qed.

End Deletion.

(* ===================================================================== *)
(** * Further properties of the pass *)
(* ===================================================================== *)

(* ===================================================================== *)
(** ** What [normalize_text] keeps and what it ignores *)
(* ===================================================================== *)

Lemma ascii_lower_ascii c : (c < 128)%N → (ascii_lower c < 128)%N.
Proof.
  unfold ascii_lower. intros Hc.
  destruct ((65 <=? c) && (c <=? 90))%N eqn:E; [|done].
  apply andb_prop in E as [E1 E2]. apply N.leb_le in E1, E2. lia.
Qed.

Lemma ascii_lower_twice c : ascii_lower (ascii_lower c) = ascii_lower c.
Proof.
  unfold ascii_lower.
  destruct ((65 <=? c) && (c <=? 90))%N eqn:E; [|by rewrite E].
  apply andb_prop in E as [E1 E2]. apply N.leb_le in E1, E2.
  destruct ((65 <=? c + 32) && (c + 32 <=? 90))%N eqn:E'; [|done].
  apply andb_prop in E' as [E3 E4]. apply N.leb_le in E3, E4. lia.
Qed.

Section NormalizerOnAscii.

Variable unicode_lower : pystr -> codepoint -> pystr -> pystr.

Lemma lower_from_ascii before t :
  is_ascii t → lower_from unicode_lower before t = map ascii_lower t.
Proof.
  intros Ht. revert before. induction Ht as [|c t Hc Ht IH]; intros before; [done|].
  simpl. unfold lower_at. rewrite (proj2 (N.ltb_lt _ _) Hc). simpl. by rewrite IH.
Qed.

(** On an ASCII text the key is the text in lower case without the code
    points outside the class. *)
Lemma normalize_text_on_ascii t :
  is_ascii t → normalize_text unicode_lower t = re_sub_strip (map ascii_lower t).
Proof.
  intros Ht. destruct t as [|c t]; [done|].
  unfold normalize_text, str_lower. by rewrite lower_from_ascii.
Qed.

(** X1: whatever the text and the Unicode case table, every code point of
    the key is a lower-case ASCII letter or a digit. *)
Theorem normalize_text_alphabet (text : pystr) (c : codepoint) :
  c ∈ normalize_text unicode_lower text →
  ((97 ≤ c ∧ c ≤ 122) ∨ (48 ≤ c ∧ c ≤ 57))%N.
Proof.
  intros Hc.
  pose proof (normalize_text_in_class unicode_lower text) as Hall.
  rewrite forallb_forall in Hall.
  apply list_elem_of_In, Hall in Hc. unfold in_class in Hc.
  rewrite orb_true_iff, !andb_true_iff, !N.leb_le in Hc. lia.
Qed.

(** X2: on ASCII texts the key of a concatenation is the concatenation of
    the keys, the key does not depend on the case of the letters, and an
    ASCII code point that is neither a letter nor a digit leaves no trace in
    the key. *)
Theorem normalize_text_ascii (a b : pystr) :
  is_ascii a → is_ascii b →
  normalize_text unicode_lower (a ++ b)
  = normalize_text unicode_lower a ++ normalize_text unicode_lower b
  ∧ normalize_text unicode_lower (map ascii_lower a) = normalize_text unicode_lower a
  ∧ ∀ c, (c < 128)%N → in_class (ascii_lower c) = false →
         normalize_text unicode_lower (a ++ c :: b)
         = normalize_text unicode_lower (a ++ b).
Proof.
  intros Ha Hb.
  assert (is_ascii (a ++ b)) as Hab by (by apply Forall_app).
  split; [|split].
  - rewrite !normalize_text_on_ascii by done.
    unfold re_sub_strip. by rewrite map_app, List.filter_app.
  - assert (is_ascii (map ascii_lower a)) as Hla.
    { unfold is_ascii in *. rewrite Forall_forall in Ha.
      apply Forall_forall. intros c Hc.
      apply list_elem_of_In, in_map_iff in Hc as (c' & <- & Hc').
      apply ascii_lower_ascii, Ha. by apply list_elem_of_In. }
    rewrite !normalize_text_on_ascii by done.
    f_equal. rewrite map_map. apply map_ext. intros c. apply ascii_lower_twice.
  - intros c Hc Hout.
    assert (is_ascii (a ++ c :: b)) as Hacb.
    { apply Forall_app. split; [done|]. by constructor. }
    rewrite !normalize_text_on_ascii by done.
    unfold re_sub_strip. rewrite !map_app, !List.filter_app. simpl. by rewrite Hout.
Qed.

End NormalizerOnAscii.

(* ===================================================================== *)
(** ** The shape of the ratio *)
(* ===================================================================== *)

Lemma lcs_sym a b : lcs a b = lcs b a.
Proof.
  revert b. induction a as [|x a IHa]; intros b; [by rewrite lcs_nil_r|].
  induction b as [|y b IHb]; [by rewrite lcs_nil_r|].
  rewrite !lcs_cons, (N.eqb_sym y x), (IHa b), (IHa (y :: b)), IHb.
  destruct (x =? y)%N; [done | apply Nat.max_comm].
Qed.

Lemma lcs_le_l a b : lcs a b ≤ length a.
Proof.
  revert b. induction a as [|x a IH]; intros b; [done|].
  pose proof (lcs_cons_l x a b). specialize (IH b). cbn [length]. lia.
Qed.

Lemma lcs_le_r a b : lcs a b ≤ length b.
Proof. rewrite lcs_sym. apply lcs_le_l. Qed.

(** A common subsequence as long as both strings is both strings. *)
Lemma lcs_full a b : lcs a b = length a → length a = length b → a = b.
Proof.
  revert b. induction a as [|x a IH]; intros [|y b] Hl Hlen; try done.
  rewrite lcs_cons in Hl. cbn [length] in Hl, Hlen.
  destruct (x =? y)%N eqn:Hxy.
  - apply N.eqb_eq in Hxy. subst y. f_equal. apply IH; lia.
  - pose proof (lcs_le_l a (y :: b)). pose proof (lcs_le_r (x :: a) b). lia.
Qed.

(** X3: the ratio does not depend on the order of its two arguments, lies
    between 0 and 1, and is 1 for two equal strings only. *)
Theorem ratio_symmetric_and_sharp (a b : pystr) :
  ratio a b = ratio b a
  ∧ (0 <= ratio a b)%Q ∧ (ratio a b <= 1)%Q
  ∧ ((ratio a b == 1)%Q ↔ a = b).
Proof.
  split; [|split; [apply ratio_ge_0 | split; [apply ratio_le_1|]]].
  - rewrite !ratio_lcs, (lcs_sym a b), (Nat.add_comm (length a)). done.
  - split; [|intros ->; apply ratio_refl].
    rewrite ratio_lcs. destruct (length a + length b =? 0) eqn:Hz.
    + apply Nat.eqb_eq in Hz. intros _.
      destruct a, b; simpl in Hz; try lia. done.
    + apply Nat.eqb_neq in Hz. unfold Qeq. cbn [Qnum Qden].
      rewrite pos_of_nat_Z by done. intros Heq.
      pose proof (lcs_le_l a b). pose proof (lcs_le_r a b).
      apply lcs_full; lia.
Qed.

(* ===================================================================== *)
(** ** What the scan marks and what it leaves *)
(* ===================================================================== *)

Lemma scan_at_grows cfg data (ids : gset Z) i : ids ⊆ scan_at cfg data ids i.
Proof.
  unfold scan_at. destruct (data !! i); [|done].
  case_bool_decide; [done | apply neighbors_grows].
Qed.

Lemma foldl_scan_at_grows cfg data idxs (ids : gset Z) :
  ids ⊆ foldl (scan_at cfg data) ids idxs.
Proof.
  revert ids. induction idxs as [|i idxs IH]; intros ids; simpl; [done|].
  etrans; [apply scan_at_grows | apply IH].
Qed.

Lemma neighbors_within cfg data i current_row js (ids : gset Z) :
  data !! i = Some current_row → ids ⊆ ids_of data →
  neighbors cfg data i current_row js ids ⊆ ids_of data.
Proof.
  intros Hcur. revert ids. induction js as [|j js IH]; intros ids Hsub; simpl; [done|].
  destruct (data !! (i + j)) as [next_row|] eqn:Hnext; [|done].
  case_bool_decide; [by apply IH|].
  assert (item_id next_row ∈ ids_of data) as Hn
    by (apply elem_of_ids_of; by eapply list_elem_of_lookup_2).
  assert (item_id current_row ∈ ids_of data) as Hc
    by (apply elem_of_ids_of; by eapply list_elem_of_lookup_2).
  destruct (compare_rows_cases cfg current_row next_row ids) as [-> | [-> | ->]].
  - apply IH. by apply add_subseteq.
  - by apply add_subseteq.
  - by apply IH.
Qed.

Lemma scan_within cfg data : scan cfg data ⊆ ids_of data.
Proof.
  unfold scan.
  assert ((∅ : gset Z) ⊆ ids_of data) as H0 by apply empty_subseteq.
  revert H0. generalize (∅ : gset Z). generalize (seq 0 (length data)).
  intros idxs. induction idxs as [|i idxs IH]; intros ids Hsub; simpl; [done|].
  apply IH. unfold scan_at.
  destruct (data !! i) as [current_row|] eqn:Hcur; [|done].
  case_bool_decide; [done | by apply neighbors_within].
Qed.

(** Two rows that meet a criterion do not both pass a judgment. *)
Lemma compare_rows_match cfg a b (ids : gset Z) :
  is_match cfg a b →
  compare_rows cfg a b ids = (ids ∪ {[item_id b]}, NextNeighbor)
  ∨ compare_rows cfg a b ids = (ids ∪ {[item_id a]}, Break).
Proof.
  intros Hm. unfold compare_rows.
  destruct (str_eqb (item_clean a) (item_clean b)) eqn:Heq.
  - destruct (length (item_text b) <=? length (item_text a)); auto.
  - destruct Hm as [Hm | Hm].
    + apply str_eqb_eq in Hm. congruence.
    + apply Qle_bool_iff in Hm. rewrite Hm. auto.
Qed.

(** When the current row is still unmarked after its inner loop, every
    neighbour of the window that is unmarked too was judged against it and
    met neither criterion. *)
Lemma neighbors_complete cfg data i current_row n : ∀ k (ids : gset Z),
  item_id current_row ∉ neighbors cfg data i current_row (seq k n) ids →
  ∀ j next_row, k ≤ j < k + n → data !! (i + j) = Some next_row →
    item_id next_row ∉ neighbors cfg data i current_row (seq k n) ids →
    ¬ is_match cfg current_row next_row.
Proof.
  induction n as [|n IH]; intros k ids Hcur j next_row Hj Hnext Hlive; [lia|].
  simpl in Hcur, Hlive.
  destruct (data !! (i + k)) as [row_k|] eqn:Hk.
  2:{ apply lookup_ge_None in Hk. apply lookup_lt_Some in Hnext. lia. }
  destruct (decide (j = k)) as [-> | Hjk].
  - rewrite Hk in Hnext. injection Hnext as ->.
    case_bool_decide as Hmarked.
    { exfalso. apply Hlive. by apply neighbors_grows. }
    intros Hm.
    destruct (compare_rows_match cfg current_row next_row ids Hm) as [Hc | Hc];
      rewrite Hc in Hcur, Hlive.
    + apply Hlive, neighbors_grows, add_self.
    + apply Hcur, add_self.
  - case_bool_decide as Hmarked.
    { apply (IH (S k) ids Hcur j next_row); [lia | done | done]. }
    destruct (compare_rows cfg current_row row_k ids) as [ids' [|]] eqn:Hc.
    + apply (IH (S k) ids' Hcur j next_row); [lia | done | done].
    + destruct (compare_rows_cases cfg current_row row_k ids) as [Hc' | [Hc' | Hc']];
        rewrite Hc' in Hc; try discriminate.
      injection Hc as <-. exfalso. apply Hcur, add_self.
Qed.

Lemma seq_split_at p len : p < len → seq 0 len = seq 0 p ++ p :: seq (S p) (len - S p).
Proof.
  intros Hp. replace len with (p + S (len - S p)) at 1 by lia.
  by rewrite seq_app.
Qed.

(** After the scan, two unmarked rows at most [WINDOW_SIZE] positions apart
    meet neither criterion. *)
Lemma scan_complete cfg data p q a b :
  data !! p = Some a → data !! q = Some b →
  p < q → (Z.of_nat q - Z.of_nat p ≤ WINDOW_SIZE cfg)%Z →
  item_id a ∉ scan cfg data → item_id b ∉ scan cfg data →
  ¬ is_match cfg a b.
Proof.
  intros Ha Hb Hpq HW Hla Hlb. unfold scan in Hla, Hlb.
  assert (p < length data) as Hp by (by eapply lookup_lt_Some).
  rewrite (seq_split_at p (length data) Hp), foldl_app in Hla, Hlb.
  simpl in Hla, Hlb.
  set (X := foldl (scan_at cfg data) ∅ (seq 0 p)) in *.
  pose proof (foldl_scan_at_grows cfg data (seq (S p) (length data - S p))
                (scan_at cfg data X p)) as Hgrow.
  pose proof (scan_at_grows cfg data X p) as Hstep.
  assert (item_id a ∉ X) as Hax by (intros ?; apply Hla, Hgrow, Hstep; done).
  rewrite (scan_at_live cfg data X p a Ha Hax) in Hgrow, Hla, Hlb.
  unfold window in Hgrow, Hla, Hlb.
  apply (neighbors_complete cfg data p a (Z.to_nat (WINDOW_SIZE cfg)) 1 X)
    with (j := q - p).
  - intros Hin. by apply Hla, Hgrow.
  - lia.
  - by replace (p + (q - p)) with q by lia.
  - intros Hin. by apply Hlb, Hgrow.
Qed.

Lemma size_list_to_set_le (l : list Z) : size (list_to_set l : gset Z) ≤ length l.
Proof.
  induction l as [|x l IH].
  { change (list_to_set [] : gset Z) with (∅ : gset Z). by rewrite size_empty. }
  change (list_to_set (x :: l) : gset Z) with ({[x]} ∪ list_to_set l : gset Z).
  cbn [length]. rewrite size_union_alt, size_singleton.
  pose proof (subseteq_size (list_to_set l ∖ {[x]}) (list_to_set l : gset Z)) as Hd.
  assert (list_to_set l ∖ {[x]} ⊆ (list_to_set l : gset Z)) as Hsub
    by (intros y [Hy _]%elem_of_difference; done).
  specialize (Hd Hsub). lia.
Qed.

(** Positions of a rearranged list go back to positions of the list, distinct
    ones to distinct ones. *)
Lemma perm_two_positions {A} (l k : list A) p q a b :
  l ≡ₚ k → l !! p = Some a → l !! q = Some b → p ≠ q →
  ∃ i j, i ≠ j ∧ k !! i = Some a ∧ k !! j = Some b.
Proof.
  intros Hperm Ha Hb Hpq.
  apply Permutation_inj in Hperm as (_ & f & Hinj & Hf).
  exists (f p), (f q). repeat split.
  - intros Heq. by apply Hpq, Hinj.
  - by rewrite <- Hf.
  - by rewrite <- Hf.
Qed.

Lemma build_data_lookup unicode_lower rows i (x : item) :
  build_data unicode_lower rows !! i = Some x →
  ∃ r, rows !! i = Some r ∧ item_id x = r.1 ∧ item_text x = r.2
       ∧ item_clean x = normalize_text unicode_lower r.2.
Proof.
  unfold build_data. intros Hx.
  change (map ?f rows) with (f <$> rows) in Hx.
  rewrite list_lookup_fmap in Hx.
  destruct (rows !! i) as [r|]; [|done].
  injection Hx as <-. by exists r.
Qed.

Lemma is_match_sym cfg a b : is_match cfg a b → is_match cfg b a.
Proof.
  intros [Heq | Hr]; [by left | right].
  by rewrite !ratio_lcs, (lcs_sym (item_clean b)), (Nat.add_comm (length (item_clean b))),
    <- ratio_lcs.
Qed.

Section FindDuplicatesFacts.

Variable unicode_lower : pystr -> codepoint -> pystr -> pystr.

(** X4: the computed set holds ids of fetched rows only, so the count shown
    at the prompt is at most the number of rows. *)
Theorem found_among_fetched cfg (rows : list db_row) :
  find_duplicates unicode_lower cfg rows ⊆ list_to_set (map fst rows)
  ∧ size (find_duplicates unicode_lower cfg rows) ≤ length rows.
Proof.
  assert (find_duplicates unicode_lower cfg rows ⊆ list_to_set (map fst rows)) as Hsub.
  { unfold find_duplicates.
    rewrite <- (list_to_set_perm_L _ _ (sorted_ids_perm unicode_lower rows)).
    apply scan_within. }
  split; [done|].
  etrans; [by apply subseteq_size|].
  etrans; [apply size_list_to_set_le|]. by rewrite length_map.
Qed.

(** X5: an id is in the computed set only if its row meets one of the two
    criteria with another row that stands at most [WINDOW_SIZE] positions
    from it in the sorted list. *)
Theorem marked_rows_have_a_match cfg (rows : list db_row) (x : Z) :
  x ∈ find_duplicates unicode_lower cfg rows →
  ∃ p q a b,
    sort_by_clean (build_data unicode_lower rows) !! p = Some a
    ∧ sort_by_clean (build_data unicode_lower rows) !! q = Some b
    ∧ p < q ∧ (Z.of_nat q - Z.of_nat p ≤ WINDOW_SIZE cfg)%Z
    ∧ (item_clean a = item_clean b
       ∨ (SIMILARITY_THRESHOLD cfg <= ratio (item_clean a) (item_clean b))%Q)
    ∧ (x = item_id a ∨ x = item_id b).
Proof. intros Hx. by apply (scan_marked_locally cfg _ x). Qed.

(** X6: when no two rows of the table meet a criterion, the computed set is
    empty: the prompt is not shown, nothing is executed and the table stays
    as it was, whatever would be typed. *)
Theorem no_match_no_deletion cfg (rows : list db_row) (user_input : pystr) :
  (∀ i j r1 r2, i ≠ j → rows !! i = Some r1 → rows !! j = Some r2 →
     normalize_text unicode_lower r1.2 ≠ normalize_text unicode_lower r2.2
     ∧ (ratio (normalize_text unicode_lower r1.2) (normalize_text unicode_lower r2.2)
        < SIMILARITY_THRESHOLD cfg)%Q) →
  find_duplicates unicode_lower cfg rows = ∅
  ∧ prompted (pass unicode_lower cfg rows user_input) = false
  ∧ executed (pass unicode_lower cfg rows user_input) = []
  ∧ store_after (pass unicode_lower cfg rows user_input) = rows.
Proof.
  intros Hno.
  assert (find_duplicates unicode_lower cfg rows = ∅) as Hempty.
  { apply leibniz_equiv, elem_of_equiv_empty. intros x Hx.
    destruct (scan_marked_locally cfg _ x Hx) as (p & q & a & b & Ha & Hb & Hpq & _ & Hm & _).
    destruct (perm_two_positions _ _ p q a b
                (sort_by_clean_perm (build_data unicode_lower rows)) Ha Hb)
      as (i & j & Hij & Hi & Hj); [lia|].
    apply build_data_lookup in Hi as (r1 & Hr1 & _ & _ & Hc1).
    apply build_data_lookup in Hj as (r2 & Hr2 & _ & _ & Hc2).
    destruct (Hno i j r1 r2 Hij Hr1 Hr2) as [Hne Hlow].
    rewrite <- Hc1, <- Hc2 in Hne, Hlow.
    destruct Hm as [Hm | Hm]; [done|].
    apply (Qlt_irrefl (SIMILARITY_THRESHOLD cfg)). by eapply Qle_lt_trans. }
  split; [done|]. unfold pass. rewrite Hempty, size_empty. done.
Qed.

(** X7: after the scan, two rows at most [WINDOW_SIZE] positions apart in
    the sorted list whose ids are both outside the computed set meet neither
    criterion: within the window no pair of duplicates is left. *)
Theorem kept_neighbours_do_not_match cfg (rows : list db_row) p q a b :
  sort_by_clean (build_data unicode_lower rows) !! p = Some a →
  sort_by_clean (build_data unicode_lower rows) !! q = Some b →
  p < q → (Z.of_nat q - Z.of_nat p ≤ WINDOW_SIZE cfg)%Z →
  item_id a ∉ find_duplicates unicode_lower cfg rows →
  item_id b ∉ find_duplicates unicode_lower cfg rows →
  item_clean a ≠ item_clean b
  ∧ (ratio (item_clean a) (item_clean b) < SIMILARITY_THRESHOLD cfg)%Q.
Proof.
  intros Ha Hb Hpq HW Hla Hlb.
  pose proof (scan_complete cfg _ p q a b Ha Hb Hpq HW Hla Hlb) as Hno.
  split.
  - intros Heq. apply Hno. by left.
  - apply Qnot_le_lt. intros Hle. apply Hno. by right.
Qed.

(** X8: in the sorted list the rows with one cleaned text stand together:
    a row between two rows with the same cleaned text has that cleaned text. *)
Theorem equal_keys_stand_together (rows : list db_row) p m q x z y :
  sort_by_clean (build_data unicode_lower rows) !! p = Some x →
  sort_by_clean (build_data unicode_lower rows) !! m = Some z →
  sort_by_clean (build_data unicode_lower rows) !! q = Some y →
  p < m < q → item_clean x = item_clean y → item_clean z = item_clean x.
Proof.
  intros Hx Hz Hy Hpmq Hxy.
  apply (same_clean_between (sort_by_clean (build_data unicode_lower rows))
           p m q x z y); try done.
  apply sort_by_clean_sorted.
Qed.

End FindDuplicatesFacts.

Lemma filter_all_true {A} (f : A → bool) l :
  Forall (λ x, f x = true) l → List.filter f l = l.
Proof.
  induction 1 as [|x l Hx Hl IH]; [done|]. simpl. by rewrite Hx, IH.
Qed.

Lemma length_filter_app_ge {A} (f : A → bool) l1 l2 l3 :
  length (List.filter f l2) ≤ length (List.filter f (l1 ++ l2 ++ l3)).
Proof. rewrite !List.filter_app, !length_app. lia. Qed.

(** A stretch of positions that all pass a test is no longer than the list
    of the elements that pass it. *)
Lemma run_length_le {A} (f : A → bool) (l : list A) p q :
  p ≤ q → q < length l →
  (∀ m z, p ≤ m ≤ q → l !! m = Some z → f z = true) →
  q - p + 1 ≤ length (List.filter f l).
Proof.
  intros Hpq Hq Hall.
  replace l with (take p l ++ take (q - p + 1) (drop p l)
                  ++ drop (q - p + 1) (drop p l)) at 1
    by (by rewrite !take_drop).
  etrans; [|apply length_filter_app_ge].
  rewrite filter_all_true.
  - rewrite length_take, length_drop. lia.
  - apply Forall_forall. intros z Hz.
    apply list_elem_of_lookup in Hz as [m Hm].
    apply lookup_take_Some in Hm as [Hm Hlt].
    rewrite lookup_drop in Hm. apply (Hall (p + m) z); [lia | done].
Qed.

(** In a sorted list two rows with a cleaned text that occurs at most
    [WINDOW_SIZE + 1] times are at most [WINDOW_SIZE] positions apart. *)
Lemma same_clean_within_window cfg data p q a b :
  StronglySorted clean_le data →
  data !! p = Some a → data !! q = Some b → p < q →
  item_clean a = item_clean b →
  (Z.of_nat (length (with_clean (item_clean a) data)) ≤ WINDOW_SIZE cfg + 1)%Z →
  (Z.of_nat q - Z.of_nat p ≤ WINDOW_SIZE cfg)%Z.
Proof.
  intros Hs Ha Hb Hpq Hab Hcount.
  assert (q - p + 1 ≤ length (with_clean (item_clean a) data)); [|lia].
  apply run_length_le; [lia | by eapply lookup_lt_Some |].
  intros m z Hm Hz. apply str_eqb_eq.
  destruct (decide (m = p)) as [-> | Hmp]; [congruence|].
  destruct (decide (m = q)) as [-> | Hmq]; [congruence|].
  apply (same_clean_between data p m q a z b); try done. lia.
Qed.

Section ExactDuplicates.

Variable unicode_lower : pystr -> codepoint -> pystr -> pystr.

Lemma row_position (rows : list db_row) r :
  r ∈ rows →
  ∃ p x, sort_by_clean (build_data unicode_lower rows) !! p = Some x
         ∧ item_id x = r.1 ∧ item_text x = r.2
         ∧ item_clean x = normalize_text unicode_lower r.2.
Proof.
  intros Hr.
  assert ({| item_id := r.1; item_text := r.2;
             item_clean := normalize_text unicode_lower r.2 |}
          ∈ sort_by_clean (build_data unicode_lower rows)) as Hin.
  { rewrite sort_by_clean_perm. unfold build_data.
    change (map ?f rows) with (f <$> rows).
    apply list_elem_of_fmap. by exists r. }
  apply list_elem_of_lookup in Hin as [p Hp]. eexists p, _. by split.
Qed.

(** X9: of two rows with different ids and the same cleaned text, at least
    one is in the computed set, provided that cleaned text occurs at most
    [WINDOW_SIZE + 1] times in the table. *)
Theorem exact_duplicates_removed cfg (rows : list db_row) (r1 r2 : db_row) :
  r1 ∈ rows → r2 ∈ rows → r1.1 ≠ r2.1 →
  normalize_text unicode_lower r1.2 = normalize_text unicode_lower r2.2 →
  (Z.of_nat (length (with_clean (normalize_text unicode_lower r1.2)
                       (build_data unicode_lower rows)))
   ≤ WINDOW_SIZE cfg + 1)%Z →
  r1.1 ∈ find_duplicates unicode_lower cfg rows
  ∨ r2.1 ∈ find_duplicates unicode_lower cfg rows.
Proof.
  intros Hr1 Hr2 Hids Hclean Hcount.
  destruct (row_position rows r1 Hr1) as (p & a & Ha & Hida & _ & Hca).
  destruct (row_position rows r2 Hr2) as (q & b & Hb & Hidb & _ & Hcb).
  rewrite <- (sort_by_clean_stable _ (build_data unicode_lower rows)), <- Hca in Hcount.
  assert (item_clean a = item_clean b) as Hab by congruence.
  assert (p ≠ q) as Hpq by (intros ->; congruence).
  destruct (decide (r1.1 ∈ find_duplicates unicode_lower cfg rows)) as [|H1]; [by left|].
  destruct (decide (r2.1 ∈ find_duplicates unicode_lower cfg rows)) as [|H2]; [by right|].
  exfalso. rewrite <- Hida in H1. rewrite <- Hidb in H2.
  set (data := sort_by_clean (build_data unicode_lower rows)) in *.
  pose proof (sort_by_clean_sorted (build_data unicode_lower rows)) as Hs.
  fold data in Hs. unfold find_duplicates in H1, H2. fold data in H1, H2.
  destruct (Nat.lt_total p q) as [Hlt | [? | Hlt]]; [|done|].
  - apply (scan_complete cfg data p q a b Ha Hb Hlt); [|done|done|by left].
    by apply (same_clean_within_window cfg data p q a b).
  - apply (scan_complete cfg data q p b a Hb Ha Hlt); [|done|done|by left].
    apply (same_clean_within_window cfg data q p b a); try done.
    by rewrite <- Hab.
Qed.

End ExactDuplicates.

(* ===================================================================== *)
(** ** Rows that all have one cleaned text *)
(* ===================================================================== *)

Lemma same_id_same_row data (r r' : item) :
  NoDup (map item_id data) → r ∈ data → r' ∈ data →
  item_id r = item_id r' → r = r'.
Proof.
  intros Hnd [i Hi]%list_elem_of_lookup [j Hj]%list_elem_of_lookup Heq.
  destruct (decide (i = j)) as [-> | Hij]; [congruence|].
  by destruct (distinct_positions data i j r r' Hnd Hi Hj Hij).
Qed.

(** Marking the shorter row of a pair keeps [longer_kept]. *)
Lemma longer_kept_add data (ids : gset Z) (loser winner : item) :
  NoDup (map item_id data) → longer_kept data ids →
  loser ∈ data → winner ∈ data →
  item_id winner ∉ ids → item_id winner ≠ item_id loser →
  length (item_text loser) ≤ length (item_text winner) →
  longer_kept data (ids ∪ {[item_id loser]}).
Proof.
  intros Hnd Hinv Hl Hw Hwlive Hne Hlen r Hr Hin.
  destruct (decide (item_id r = item_id loser)) as [Heq | Hrl].
  - apply (same_id_same_row data r loser Hnd Hr Hl) in Heq as ->.
    exists winner. split; [done|]. split; [by apply add_not_elem | done].
  - apply add_other in Hin; [|done].
    destruct (Hinv r Hr Hin) as (r' & Hr' & Hlive & Hle).
    destruct (decide (item_id r' = item_id loser)) as [Heq | Hne'].
    + apply (same_id_same_row data r' loser Hnd Hr' Hl) in Heq as ->.
      exists winner. split; [done|]. split; [by apply add_not_elem | lia].
    + exists r'. split; [done|]. split; [by apply add_not_elem | done].
Qed.

Lemma neighbors_longer_kept cfg data k i current_row js (ids : gset Z) :
  NoDup (map item_id data) →
  (∀ r, r ∈ data → item_clean r = k) →
  data !! i = Some current_row →
  Forall (λ j, 0 < j) js →
  item_id current_row ∉ ids →
  longer_kept data ids →
  longer_kept data (neighbors cfg data i current_row js ids).
Proof.
  intros Hnd Hk Hcur Hjs. revert ids.
  induction Hjs as [|j js Hj Hjs IH]; intros ids Hlive Hinv; simpl; [done|].
  destruct (data !! (i + j)) as [next_row|] eqn:Hnext; [|done].
  case_bool_decide as Hmarked; [by apply IH|].
  assert (item_id current_row ≠ item_id next_row) as Hne
    by (eapply distinct_positions; eauto; lia).
  assert (next_row ∈ data) as Hin by (by eapply list_elem_of_lookup_2).
  assert (current_row ∈ data) as Hcin by (by eapply list_elem_of_lookup_2).
  unfold compare_rows.
  rewrite (Hk _ Hcin), (Hk _ Hin), str_eqb_refl.
  destruct (Nat.leb_spec (length (item_text next_row)) (length (item_text current_row))).
  - apply IH; [by apply add_not_elem|].
    by apply (longer_kept_add data ids next_row current_row Hnd Hinv Hin Hcin Hlive).
  - apply (longer_kept_add data ids current_row next_row Hnd Hinv Hcin Hin Hmarked);
      [congruence | lia].
Qed.

Lemma scan_longer_kept cfg data k :
  NoDup (map item_id data) → (∀ r, r ∈ data → item_clean r = k) →
  longer_kept data (scan cfg data).
Proof.
  intros Hnd Hk. unfold scan.
  assert (longer_kept data ∅) as H0
    by (intros r _ Hr; by apply not_elem_of_empty in Hr).
  revert H0. generalize (∅ : gset Z). generalize (seq 0 (length data)).
  intros idxs. induction idxs as [|i idxs IH]; intros ids Hinv; simpl; [done|].
  apply IH. unfold scan_at.
  destruct (data !! i) as [current_row|] eqn:Hcur; [|done].
  case_bool_decide; [done|].
  apply (neighbors_longer_kept cfg data k); auto using window_positive.
Qed.

Lemma exists_longest (data : list item) :
  data ≠ [] →
  ∃ m, m ∈ data ∧ ∀ r, r ∈ data → length (item_text r) ≤ length (item_text m).
Proof.
  induction data as [|x data IH]; [done|]. intros _.
  destruct data as [|y data].
  { exists x. split; [left|]. by intros r ->%list_elem_of_singleton. }
  destruct IH as (m & Hm & Hmax); [done|].
  destruct (le_lt_dec (length (item_text x)) (length (item_text m))).
  - exists m. split; [by right|].
    intros r [-> | Hr]%elem_of_cons; [done | by apply Hmax].
  - exists x. split; [left|].
    intros r [-> | Hr]%elem_of_cons; [done|]. specialize (Hmax r Hr). lia.
Qed.

Section OneCleanText.

Variable unicode_lower : pystr -> codepoint -> pystr -> pystr.

Lemma sorted_row (rows : list db_row) (x : item) :
  x ∈ sort_by_clean (build_data unicode_lower rows) →
  ∃ r, r ∈ rows ∧ item_id x = r.1 ∧ item_text x = r.2
       ∧ item_clean x = normalize_text unicode_lower r.2.
Proof.
  rewrite sort_by_clean_perm. unfold build_data.
  change (map ?f rows) with (f <$> rows).
  intros (r & -> & Hr)%list_elem_of_fmap. by exists r.
Qed.

(** X10: in a table with pairwise distinct ids whose rows all have the same
    cleaned text, a row with a longest text is kept; and when the table has
    at most [WINDOW_SIZE + 1] rows, every other row is in the computed set. *)
Theorem one_clean_text_keeps_a_longest cfg (rows : list db_row) (k : pystr) :
  rows ≠ [] →
  NoDup (map fst rows) →
  (∀ r, r ∈ rows → normalize_text unicode_lower r.2 = k) →
  ∃ s, s ∈ rows
       ∧ (s.1 ∉ find_duplicates unicode_lower cfg rows)
       ∧ (∀ r, r ∈ rows → length r.2 ≤ length s.2)
       ∧ ((Z.of_nat (length rows) ≤ WINDOW_SIZE cfg + 1)%Z →
          ∀ r, r ∈ rows → r.1 ≠ s.1 →
               r.1 ∈ find_duplicates unicode_lower cfg rows).
Proof.
  intros Hne Hnd Hk. unfold find_duplicates.
  set (data := sort_by_clean (build_data unicode_lower rows)).
  assert (NoDup (map item_id data)) as Hnd'
    by (unfold data; by rewrite sorted_ids_perm).
  assert (length data = length rows) as Hlen.
  { pose proof (Permutation_length (sorted_ids_perm unicode_lower rows)) as Hl.
    by rewrite !length_map in Hl. }
  assert (∀ r, r ∈ data → item_clean r = k) as Hk'.
  { intros x (r & Hr & _ & _ & ->)%sorted_row. by apply Hk. }
  assert (data ≠ []) as Hne' by (intros Hnil; rewrite Hnil in Hlen; by destruct rows).
  destruct (exists_longest data Hne') as (m & Hm & Hmax).
  assert (∃ x, x ∈ data ∧ (item_id x ∉ scan cfg data)
               ∧ ∀ r, r ∈ data → length (item_text r) ≤ length (item_text x))
    as (x & Hx & Hlive & Hxmax).
  { destruct (decide (item_id m ∈ scan cfg data)) as [Hmarked|]; [|by exists m].
    destruct (scan_longer_kept cfg data k Hnd' Hk' m Hm Hmarked) as (m' & Hm' & Hl & Hle).
    exists m'. split; [done|]. split; [done|].
    intros r Hr. specialize (Hmax r Hr). lia. }
  destruct (sorted_row rows x Hx) as (s & Hs & Hids & Htexts & _).
  exists s. split; [done|]. split; [intros Hin; apply Hlive; by rewrite Hids|]. split.
  - intros r Hr.
    destruct (row_position unicode_lower rows r Hr) as (p & y & Hy & _ & Hty & _).
    assert (y ∈ data) as Hyd by (by eapply list_elem_of_lookup_2).
    specialize (Hxmax y Hyd). rewrite Hty, Htexts in Hxmax. exact Hxmax.
  - intros Hsmall r Hr Hrs.
    destruct (row_position unicode_lower rows r Hr) as (p & y & Hy & Hidy & _ & _).
    apply list_elem_of_lookup in Hx as [q Hq]. fold data in Hy.
    destruct (decide (r.1 ∈ scan cfg data)) as [|Hkept]; [done|].
    exfalso. rewrite <- Hidy in Hkept.
    assert (p ≠ q) as Hpq.
    { intros ->. rewrite Hy in Hq. injection Hq as ->. apply Hrs.
      transitivity (item_id x); [symmetry; exact Hidy | exact Hids]. }
    assert (p < length data ∧ q < length data) as [Hp Hq']
      by (split; by eapply lookup_lt_Some).
    assert (item_clean y = item_clean x) as Hyx.
    { rewrite (Hk' y), (Hk' x); [done | | ]; by eapply list_elem_of_lookup_2. }
    destruct (Nat.lt_total p q) as [Hlt | [? | Hlt]]; [|done|].
    + apply (scan_complete cfg data p q y x Hy Hq Hlt); [lia|done|done|by left].
    + apply (scan_complete cfg data q p x y Hq Hy Hlt); [lia|done|done|by left].
Qed.

End OneCleanText.

(* ===================================================================== *)
(** ** The statements of the deletion step *)
(* ===================================================================== *)

Lemma batch_start_in_range n b q : 0 < b → q < (n + (b - 1)) / b → q * b < n.
Proof.
  intros Hb Hq.
  pose proof (Nat.Div0.mul_div_le (n + (b - 1)) b) as Hle. nia.
Qed.

Lemma batches_sizes (l : list Z) b :
  0 < b → Forall (λ stmt, 0 < length stmt ≤ b) (batches l b).
Proof.
  intros Hb. unfold batches, batch_starts. apply Forall_forall. intros stmt Hin.
  rewrite map_map in Hin.
  apply list_elem_of_In, in_map_iff in Hin as (q & <- & Hq).
  apply in_seq in Hq as [_ Hq]. simpl in Hq.
  pose proof (batch_start_in_range (length l) b q Hb Hq).
  rewrite length_take, length_drop. lia.
Qed.

Lemma filter_complement_length {A} (f : A → bool) l :
  length (List.filter f l) + length (List.filter (λ x, negb (f x)) l) = length l.
Proof.
  induction l as [|x l IH]; [done|]. simpl.
  destruct (f x); simpl; lia.
Qed.

(** In a table with pairwise distinct ids, a set of ids of the table has as
    many rows as elements. *)
Lemma marked_rows_count (store : list db_row) : ∀ ids : gset Z,
  NoDup (map fst store) → ids ⊆ list_to_set (map fst store) →
  length (List.filter (λ r : db_row, bool_decide (r.1 ∈ ids)) store) = size ids.
Proof.
  induction store as [|r store IH]; intros ids Hnd Hsub.
  { simpl in *. apply symmetry, size_empty_iff.
    intros x. split; [intros Hx; by apply Hsub in Hx | intros Hx; by apply not_elem_of_empty in Hx]. }
  apply NoDup_cons in Hnd as [Hfresh Hnd].
  change (list_to_set (map fst (r :: store)) : gset Z)
    with ({[r.1]} ∪ list_to_set (map fst store) : gset Z) in Hsub.
  assert (∀ X : gset Z, (∀ x, x ∈ X ∖ {[r.1]} ↔ x ∈ ids ∖ {[r.1]}) →
            List.filter (λ r0 : db_row, bool_decide (r0.1 ∈ ids)) store
            = List.filter (λ r0 : db_row, bool_decide (r0.1 ∈ X)) store) as Hext.
  { intros X HX. apply filter_ext_in. intros r0 Hr0.
    assert (r0.1 ≠ r.1) as Hne.
    { intros Heq. apply Hfresh. rewrite <- Heq.
      apply list_elem_of_In, in_map, Hr0. }
    apply bool_decide_ext. specialize (HX r0.1).
    rewrite !elem_of_difference, !elem_of_singleton in HX. tauto. }
  assert (ids ∖ {[r.1]} ⊆ list_to_set (map fst store)) as Hsub'.
  { intros x [Hx Hne]%elem_of_difference.
    apply Hsub, elem_of_union in Hx as [Hx | Hx]; [done | done]. }
  cbn [List.filter].
  rewrite (Hext (ids ∖ {[r.1]})) by (intros x; rewrite !elem_of_difference; tauto).
  case_bool_decide as Hin; cbn [length]; rewrite (IH _ Hnd Hsub').
  - rewrite size_difference by (by apply singleton_subseteq_l).
    rewrite size_singleton.
    assert (0 < size ids); [|lia].
    pose proof (subseteq_size ({[r.1]} : gset Z) ids) as Hs.
    rewrite size_singleton in Hs. apply Hs. by apply singleton_subseteq_l.
  - f_equal. apply leibniz_equiv. intros x.
    rewrite elem_of_difference, elem_of_singleton. split; [tauto|].
    intros Hx. split; [done|]. by intros ->.
Qed.

Section DeletionFacts.

Variable unicode_lower : pystr -> codepoint -> pystr -> pystr.

(** What a run that executes statements does. *)
Lemma pass_executed cfg (store : list db_row) (user_input : pystr) :
  executed (pass unicode_lower cfg store user_input) ≠ [] →
  executed (pass unicode_lower cfg store user_input)
  = batches (elements (find_duplicates unicode_lower cfg store)) 900
  ∧ store_after (pass unicode_lower cfg store user_input)
    = List.filter
        (λ row : db_row,
           negb (bool_decide (row.1 ∈ find_duplicates unicode_lower cfg store)))
        store.
Proof.
  unfold pass.
  destruct (0 <? size (find_duplicates unicode_lower cfg store)); [|done].
  destruct (str_eqb user_input (of_string "YES")); [|done].
  simpl. intros _. split; [done|].
  rewrite foldl_delete_in, concat_batches by lia.
  unfold delete_in. apply filter_ext. intros row.
  f_equal. apply bool_decide_ext. apply elem_of_elements.
Qed.

(** X11: every [DELETE] statement of a run carries at least one and at most
    900 ids; no id is carried twice, and the ids carried are those of the
    computed set. *)
Theorem statements_are_bounded cfg (store : list db_row) (user_input : pystr) :
  Forall (λ stmt, 0 < length stmt ≤ 900)
    (executed (pass unicode_lower cfg store user_input))
  ∧ NoDup (concat (executed (pass unicode_lower cfg store user_input)))
  ∧ (executed (pass unicode_lower cfg store user_input) ≠ [] →
     ∀ x, x ∈ concat (executed (pass unicode_lower cfg store user_input))
          ↔ x ∈ find_duplicates unicode_lower cfg store).
Proof.
  destruct (decide (executed (pass unicode_lower cfg store user_input) = []))
    as [Hnil | Hex].
  { rewrite Hnil. split; [constructor|]. split; [constructor | done]. }
  destruct (pass_executed cfg store user_input Hex) as [-> _].
  rewrite concat_batches by lia.
  split; [apply batches_sizes; lia|]. split; [apply NoDup_elements|].
  intros _ x. apply elem_of_elements.
Qed.

(** X12: in a table with pairwise distinct ids, a run that executes
    statements removes as many rows as the count it showed. *)
Theorem rows_removed_is_count cfg (store : list db_row) (user_input : pystr) :
  NoDup (map fst store) →
  executed (pass unicode_lower cfg store user_input) ≠ [] →
  length (store_after (pass unicode_lower cfg store user_input))
  + size (find_duplicates unicode_lower cfg store)
  = length store.
Proof.
  intros Hnd Hex.
  destruct (pass_executed cfg store user_input Hex) as [_ ->].
  rewrite <- (marked_rows_count store (find_duplicates unicode_lower cfg store) Hnd).
  - rewrite Nat.add_comm. apply filter_complement_length.
  - unfold find_duplicates.
    rewrite <- (list_to_set_perm_L _ _ (sorted_ids_perm unicode_lower store)).
    apply scan_within.
Qed.

End DeletionFacts.

(* ===================================================================== *)
(** ** Two rows that are close but not equal, and the order of arrival *)
(* ===================================================================== *)

Lemma ratio_sym a b : ratio a b = ratio b a.
Proof. by rewrite !ratio_lcs, (lcs_sym a b), (Nat.add_comm (length a)). Qed.

(** The scan of a list of two rows with different cleaned texts whose ratio
    reaches the threshold. *)
Lemma scan_close_pair cfg (x y : item) :
  (1 ≤ WINDOW_SIZE cfg)%Z →
  item_clean x ≠ item_clean y →
  (SIMILARITY_THRESHOLD cfg <= ratio (item_clean x) (item_clean y))%Q →
  scan cfg [x; y] = {[ item_id y ]}.
Proof.
  intros HW Hne Hr. unfold scan.
  change (seq 0 (length [x; y])) with [0; 1]. cbn [foldl].
  assert (scan_at cfg [x; y] ∅ 0 = {[ item_id y ]}) as ->.
  { rewrite (scan_at_live cfg [x; y] ∅ 0 x) by (done || apply not_elem_of_empty).
    unfold window.
    destruct (Z.to_nat (WINDOW_SIZE cfg)) as [|n] eqn:HWn; [lia|].
    cbn [seq].
    rewrite (neighbors_live cfg [x; y] 0 x 1 (seq 2 n) y ∅)
      by (done || apply not_elem_of_empty).
    unfold compare_rows. rewrite (str_eqb_neq _ _ Hne).
    rewrite (proj2 (Qle_bool_iff _ _) Hr).
    rewrite (neighbors_past_end cfg [x; y] 0 x n 2) by (simpl; lia).
    by rewrite union_empty_l_L. }
  apply (scan_at_marked cfg [x; y] _ 1 y); [done|]. by apply elem_of_singleton.
Qed.

Lemma same_clean_same_row data (r r' : item) :
  NoDup (map item_clean data) → r ∈ data → r' ∈ data →
  item_clean r = item_clean r' → r = r'.
Proof.
  intros Hnd [i Hi]%list_elem_of_lookup [j Hj]%list_elem_of_lookup Heq.
  assert (i = j) as ->; [|congruence].
  apply (NoDup_lookup _ _ _ (item_clean r) Hnd).
  - change (map item_clean data) with (item_clean <$> data).
    by rewrite list_lookup_fmap, Hi.
  - change (map item_clean data) with (item_clean <$> data).
    by rewrite list_lookup_fmap, Hj, Heq.
Qed.

(** Two sorted rearrangements of rows with pairwise distinct cleaned texts
    are the same list. *)
Lemma sorted_by_clean_unique (l1 : list item) : ∀ l2,
  l1 ≡ₚ l2 → NoDup (map item_clean l1) →
  StronglySorted clean_le l1 → StronglySorted clean_le l2 → l1 = l2.
Proof.
  induction l1 as [|x l1 IH]; intros l2 Hperm Hnd Hs1 Hs2.
  { by apply Permutation_nil in Hperm. }
  destruct l2 as [|y l2].
  { by apply Permutation_sym, Permutation_nil in Hperm. }
  apply StronglySorted_inv in Hs1 as [Hs1 Hx].
  apply StronglySorted_inv in Hs2 as [Hs2 Hy].
  rewrite Forall_forall in Hx, Hy.
  assert (x = y) as ->.
  { assert (x ∈ y :: l2) as Hxin by (rewrite <- Hperm; left).
    assert (y ∈ x :: l1) as Hyin by (rewrite Hperm; left).
    apply elem_of_cons in Hxin as [? | Hxin]; [done|].
    apply elem_of_cons in Hyin as [? | Hyin]; [done|].
    apply (same_clean_same_row (x :: l1)); [done | left | by right |].
    apply str_ltb_connex; [apply (Hy x Hxin) | apply (Hx y Hyin)]. }
  f_equal. apply IH; [by apply Permutation_cons_inv in Hperm | | done | done].
  by apply NoDup_cons in Hnd as [_ ?].
Qed.

Section ArrivalOrder.

Variable unicode_lower : pystr -> codepoint -> pystr -> pystr.

(** X13: for two rows with different cleaned texts whose ratio reaches the
    threshold, and a window of at least one neighbour, the computed set is
    the single id of the row whose cleaned text is the larger one in string
    order: the row with the smaller cleaned text is kept, whatever the ids
    and the order of arrival. *)
Theorem two_close_rows cfg (r1 r2 : db_row) :
  (1 ≤ WINDOW_SIZE cfg)%Z →
  normalize_text unicode_lower r1.2 ≠ normalize_text unicode_lower r2.2 →
  (SIMILARITY_THRESHOLD cfg
   <= ratio (normalize_text unicode_lower r1.2) (normalize_text unicode_lower r2.2))%Q →
  find_duplicates unicode_lower cfg [r1; r2]
  = {[ if str_ltb (normalize_text unicode_lower r1.2) (normalize_text unicode_lower r2.2)
       then r2.1 else r1.1 ]}.
Proof.
  intros HW Hne Hr. unfold find_duplicates, build_data. simpl.
  destruct (str_ltb (normalize_text unicode_lower r2.2)
              (normalize_text unicode_lower r1.2)) eqn:H21.
  - assert (str_ltb (normalize_text unicode_lower r1.2)
              (normalize_text unicode_lower r2.2) = false) as ->.
    { destruct (str_ltb (normalize_text unicode_lower r1.2) _) eqn:H12; [|done].
      pose proof (str_ltb_trans _ _ _ H12 H21) as Hxx.
      by rewrite str_ltb_irrefl in Hxx. }
    rewrite (scan_close_pair cfg _ _ HW);
      [done | simpl; by apply not_eq_sym | simpl; by rewrite ratio_sym].
  - assert (str_ltb (normalize_text unicode_lower r1.2)
              (normalize_text unicode_lower r2.2) = true) as ->.
    { destruct (str_ltb (normalize_text unicode_lower r1.2) _) eqn:H12; [done|].
      by destruct (Hne (str_ltb_connex _ _ H12 H21)). }
    by rewrite (scan_close_pair cfg _ _ HW).
Qed.

(** X14: when the cleaned texts of the rows are pairwise distinct, the
    computed set does not depend on the order in which the rows arrive. *)
Theorem arrival_order_is_immaterial cfg (rows rows' : list db_row) :
  NoDup (map (λ r : db_row, normalize_text unicode_lower r.2) rows) →
  rows ≡ₚ rows' →
  find_duplicates unicode_lower cfg rows = find_duplicates unicode_lower cfg rows'.
Proof.
  intros Hnd Hperm. unfold find_duplicates. f_equal.
  assert (build_data unicode_lower rows ≡ₚ build_data unicode_lower rows') as Hb.
  { unfold build_data. change (map ?f rows) with (f <$> rows).
    change (map ?f rows') with (f <$> rows'). by rewrite Hperm. }
  apply sorted_by_clean_unique.
  - by rewrite !sort_by_clean_perm.
  - change (map item_clean ?l) with (item_clean <$> l).
    rewrite sort_by_clean_perm. unfold build_data.
    change (item_clean <$> map ?f rows) with (map item_clean (map f rows)).
    by rewrite map_map.
  - apply sort_by_clean_sorted.
  - apply sort_by_clean_sorted.
Qed.

End ArrivalOrder.

(* ===================================================================== *)
(** * The pass on concrete tables *)
(* ===================================================================== *)

(** The end-to-end scenario of the specification. *)
Example dogs_scenario :
  find_duplicates plain_lower shipped_config dogs_rows = {[ 1%Z ]}.
Proof. vm_compute. reflexivity. Qed.

(** Twelve rows with one text and the shipped window of 10: the first row
    removes the ten after it and never meets the twelfth, which stays. *)
Example twelve_copies :
  elements (find_duplicates plain_lower shipped_config
              (map (λ i, (Z.of_nat i, of_string "same text")) (seq 1 12)))
  ≡ₚ [2; 3; 4; 5; 6; 7; 8; 9; 10; 11]%Z.
Proof.
  apply (bool_decide_unpack _). vm_compute. reflexivity.
Qed.

(** A ratio of exactly 18/20 reaches the shipped threshold; 16/18 does not. *)
Example threshold_boundary :
  (ratio (of_string "abcdefghijk") (of_string "abcdefghi") == 9 # 10)%Q
  ∧ compare_rows shipped_config
      (Item 1 (of_string "abcdefghijk") (of_string "abcdefghijk"))
      (Item 2 (of_string "abcdefghi") (of_string "abcdefghi")) ∅
    = (∅ ∪ {[ 2%Z ]}, NextNeighbor)
  ∧ compare_rows shipped_config
      (Item 1 (of_string "abcdefghij") (of_string "abcdefghij"))
      (Item 2 (of_string "abcdefgh") (of_string "abcdefgh")) ∅
    = (∅, NextNeighbor).
Proof. repeat split. Qed.


Lemma fuzzy_match_branch_witness :
  (neighbors shipped_config [love_dog; love_dogs] 0 love_dog [1; 2] ∅
   = neighbors shipped_config [love_dog; love_dogs] 0 love_dog [2] (∅ ∪ {[ 1%Z ]})
   ∧ 1%Z ∈ neighbors shipped_config [love_dog; love_dogs] 0 love_dog [1; 2] ∅)
  ∧ (2%Z ∈ neighbors shipped_config [love_dog; love_dogs] 0 love_dog [1; 2] ∅
     ↔ 2%Z ∈ neighbors shipped_config [love_dog; love_dogs] 0 love_dog [2] ∅)
  ∧ neighbors shipped_config [cat; dog] 0 cat [1; 2] ∅
    = neighbors shipped_config [cat; dog] 0 cat [2] ∅
  ∧ (2%Z ∈ neighbors shipped_config [cat; dog] 0 cat [1; 2] ∅
     ↔ (SIMILARITY_THRESHOLD shipped_config
        <= ratio (of_string "cat") (of_string "dog"))%Q).
Proof.
  assert (item_clean love_dog ≠ item_clean love_dogs) as Hdogs
    by (vm_compute; discriminate).
  assert (item_clean cat ≠ item_clean dog) as Hcat by (vm_compute; discriminate).
  destruct (fuzzy_match_branch shipped_config [love_dog; love_dogs] 0 love_dog 1 [2]
              love_dogs ∅ eq_refl (not_elem_of_empty _) Hdogs)
    as (Hmatch & _ & Hdistinct).
  destruct (fuzzy_match_branch shipped_config [cat; dog] 0 cat 1 [2]
              dog ∅ eq_refl (not_elem_of_empty _) Hcat)
    as (_ & Hbelow & Hdistinct').
  split; [|split; [|split]].
  - apply Hmatch. vm_compute. discriminate.
  - apply Hdistinct.
    + vm_compute. discriminate.
    + intros k r Hk Hr. apply list_elem_of_singleton in Hk. subst k. discriminate.
  - apply Hbelow. reflexivity.
  - apply Hdistinct'.
    + vm_compute. discriminate.
    + intros k r Hk Hr. apply list_elem_of_singleton in Hk. subst k. discriminate.
Defined.

(** C3 fails as worded: for the keys of "I love dog" and "I love dogs" the
    code gives 16/17, a match at the shipped threshold, where the formula
    gives 8/9, which is none; and two pairs with the same lengths and the
    same unit-cost distance get different ratios, so the ratio is no
    function of that distance and the lengths. *)
Lemma ratio_is_not_spec_ratio :
  ¬ (ratio (of_string "ilovedog") (of_string "ilovedogs")
     == spec_ratio (of_string "ilovedog") (of_string "ilovedogs"))%Q
  ∧ (SIMILARITY_THRESHOLD shipped_config
     <= ratio (of_string "ilovedog") (of_string "ilovedogs"))%Q
  ∧ ¬ (SIMILARITY_THRESHOLD shipped_config
       <= spec_ratio (of_string "ilovedog") (of_string "ilovedogs"))%Q
  ∧ lev_edit_distance false (of_string "ab") (of_string "ba")
    = lev_edit_distance false (of_string "ab") (of_string "cd")
  ∧ ¬ (ratio (of_string "ab") (of_string "ba")
       == ratio (of_string "ab") (of_string "cd"))%Q.
Proof.
  repeat split.
  - intros H. vm_compute in H. discriminate.
  - vm_compute. discriminate.
  - intros H. vm_compute in H. by apply H.
  - intros H. vm_compute in H. discriminate.
Qed.

(** C4 fails as worded: two rows with the same cleaned text, fetched with
    the larger id first, stay in that order. *)
Lemma ties_keep_arrival_order :
  map item_id (sort_by_clean (build_data plain_lower tie_rows)) = [2; 1]%Z
  ∧ ¬ StronglySorted clean_then_id_le
        (sort_by_clean (build_data plain_lower tie_rows)).
Proof.
  split; [reflexivity|].
  intros Hs. apply StronglySorted_inv in Hs as [_ Hall].
  apply Forall_inv in Hall. destruct Hall as [Hlt | [_ Hle]].
  - vm_compute in Hlt. discriminate.
  - simpl in Hle. lia.
Qed.



(** The pair the window of 1 leaves is found by the shipped window. *)
Example wider_window_finds_the_pair :
  find_duplicates plain_lower window_of_one dogma_rows = ∅
  ∧ find_duplicates plain_lower shipped_config dogma_rows = {[ 1%Z ]}.
Proof. split; apply (bool_decide_unpack _); vm_compute; exact I. Qed.

Lemma two_rows_same_clean_witness :
  find_duplicates plain_lower shipped_config no_pain_rows = {[ 2%Z ]}
  ∧ (1%Z ≠ 2%Z → 1%Z ∉ find_duplicates plain_lower shipped_config no_pain_rows).
Proof.
  apply (two_rows_same_clean plain_lower shipped_config
           (1%Z, of_string "No pain, no gain!") (2%Z, of_string "no pain no gain")).
  - simpl. lia.
  - reflexivity.
Defined.

(** C7 fails as worded: with a threshold of -1 the pass returns, having
    matched "cat" with "dog" and deleted a row; with a window of 0 it
    returns too, having fetched the rows. *)
Lemma out_of_range_config_runs :
  ¬ config_in_range negative_threshold
  ∧ ¬ config_in_range no_window
  ∧ clean_database plain_lower negative_threshold cat_dog_rows (of_string "YES")
    ≠ Raises ConfigurationError
  ∧ store_after (pass plain_lower negative_threshold cat_dog_rows (of_string "YES"))
    = [(1%Z, of_string "cat")]
  ∧ clean_database plain_lower no_window cat_dog_rows (of_string "YES")
    ≠ Raises ConfigurationError
  ∧ fetched (pass plain_lower no_window cat_dog_rows (of_string "YES"))
    = cat_dog_rows.
Proof.
  repeat split; try discriminate; try reflexivity.
  - intros (H & _ & _). vm_compute in H. by apply H.
  - intros (_ & _ & H). vm_compute in H. discriminate.
Qed.

Lemma configuration_is_not_checked_witness :
  ids_to_delete (pass plain_lower no_window no_pain_rows (of_string "YES")) = ∅
  ∧ store_after (pass plain_lower no_window no_pain_rows (of_string "YES"))
    = no_pain_rows.
Proof.
  apply (proj1 (proj2 (proj2
    (configuration_is_not_checked plain_lower no_window no_pain_rows (of_string "YES"))))).
  simpl. lia.
Defined.

Lemma deletion_needs_confirmation_witness :
  store_after (pass plain_lower shipped_config dogs_rows (of_string "YES"))
  = List.filter
      (λ row : db_row,
         negb (bool_decide
                 (row.1 ∈ ids_to_delete
                            (pass plain_lower shipped_config dogs_rows (of_string "YES")))))
      dogs_rows
  ∧ (executed (pass plain_lower shipped_config dogs_rows (of_string "yes")) = []
     ∧ store_after (pass plain_lower shipped_config dogs_rows (of_string "yes"))
       = dogs_rows).
Proof.
  split.
  - apply (proj1 (proj2
      (deletion_needs_confirmation plain_lower shipped_config dogs_rows (of_string "YES")))).
    vm_compute. discriminate.
  - apply (proj1 (proj2 (proj2
      (deletion_needs_confirmation plain_lower shipped_config dogs_rows (of_string "yes"))))).
    vm_compute. discriminate.
Defined.

Lemma deletion_set_strict_subset_witness :
  find_duplicates plain_lower shipped_config dogs_rows
  ⊂ list_to_set (map fst dogs_rows).
Proof.
  apply (deletion_set_strict_subset plain_lower shipped_config dogs_rows).
  - discriminate.
  - apply (bool_decide_unpack _). vm_compute. reflexivity.
Defined.

(* ===================================================================== *)
(** ** The further properties on concrete tables *)
(* ===================================================================== *)

Lemma normalize_text_alphabet_witness :
  ((97 ≤ 110 ∧ 110 ≤ 122) ∨ (48 ≤ 110 ∧ 110 ≤ 57))%N.
Proof.
  apply (normalize_text_alphabet plain_lower (of_string "No pain, no gain!") 110%N).
  apply (bool_decide_unpack _). vm_compute. exact I.
Defined.

Lemma normalize_text_ascii_witness :
  normalize_text plain_lower (of_string "No pain, " ++ of_string "no gain!")
  = normalize_text plain_lower (of_string "No pain, ")
    ++ normalize_text plain_lower (of_string "no gain!").
Proof.
  refine (proj1 (normalize_text_ascii plain_lower
                   (of_string "No pain, ") (of_string "no gain!") _ _)).
  - apply (bool_decide_unpack _). vm_compute. exact I.
  - apply (bool_decide_unpack _). vm_compute. exact I.
Defined.

Lemma ratio_symmetric_and_sharp_witness :
  (ratio (of_string "ilovedog") (of_string "ilovedog") == 1)%Q.
Proof.
  apply (proj2 (proj2 (proj2 (proj2
    (ratio_symmetric_and_sharp (of_string "ilovedog") (of_string "ilovedog")))))).
  reflexivity.
Defined.

Lemma marked_rows_have_a_match_witness :
  ∃ p q a b,
    sort_by_clean (build_data plain_lower dogs_rows) !! p = Some a
    ∧ sort_by_clean (build_data plain_lower dogs_rows) !! q = Some b
    ∧ p < q ∧ (Z.of_nat q - Z.of_nat p ≤ WINDOW_SIZE shipped_config)%Z
    ∧ (item_clean a = item_clean b
       ∨ (SIMILARITY_THRESHOLD shipped_config
          <= ratio (item_clean a) (item_clean b))%Q)
    ∧ (1%Z = item_id a ∨ 1%Z = item_id b).
Proof.
  apply (marked_rows_have_a_match plain_lower shipped_config dogs_rows 1%Z).
  apply (bool_decide_unpack _). vm_compute. exact I.
Defined.

Lemma no_match_no_deletion_witness :
  find_duplicates plain_lower shipped_config cat_dog_rows = ∅
  ∧ prompted (pass plain_lower shipped_config cat_dog_rows (of_string "YES")) = false
  ∧ executed (pass plain_lower shipped_config cat_dog_rows (of_string "YES")) = []
  ∧ store_after (pass plain_lower shipped_config cat_dog_rows (of_string "YES"))
    = cat_dog_rows.
Proof.
  apply (no_match_no_deletion plain_lower shipped_config cat_dog_rows (of_string "YES")).
  intros i j r1 r2 Hij Hi Hj.
  destruct i as [|[|i]], j as [|[|j]]; try done;
    injection Hi as <-; injection Hj as <-;
    (split; [vm_compute; discriminate | vm_compute; reflexivity]).
Defined.

Lemma kept_neighbours_do_not_match_witness :
  of_string "completelyunrelatedtext" ≠ of_string "ilovedog"
  ∧ (ratio (of_string "completelyunrelatedtext") (of_string "ilovedog")
     < SIMILARITY_THRESHOLD shipped_config)%Q.
Proof.
  apply (kept_neighbours_do_not_match plain_lower shipped_config dogs_rows 0 1
           (Item 3 (of_string "completely unrelated text")
              (of_string "completelyunrelatedtext"))
           (Item 2 (of_string "I love dog") (of_string "ilovedog"))).
  - reflexivity.
  - reflexivity.
  - lia.
  - simpl. lia.
  - apply (bool_decide_unpack _). vm_compute. exact I.
  - apply (bool_decide_unpack _). vm_compute. exact I.
Defined.

Lemma equal_keys_stand_together_witness :
  of_string "ab" = of_string "ab".
Proof.
  apply (equal_keys_stand_together plain_lower
           [(1%Z, of_string "a b"); (2%Z, of_string "ab"); (3%Z, of_string "A B")]
           0 1 2
           (Item 1 (of_string "a b") (of_string "ab"))
           (Item 2 (of_string "ab") (of_string "ab"))
           (Item 3 (of_string "A B") (of_string "ab"))).
  - reflexivity.
  - reflexivity.
  - reflexivity.
  - lia.
  - reflexivity.
Defined.

Lemma exact_duplicates_removed_witness :
  1%Z ∈ find_duplicates plain_lower shipped_config no_pain_rows
  ∨ 2%Z ∈ find_duplicates plain_lower shipped_config no_pain_rows.
Proof.
  apply (exact_duplicates_removed plain_lower shipped_config no_pain_rows
           (1%Z, of_string "No pain, no gain!") (2%Z, of_string "no pain no gain")).
  - left.
  - right. left.
  - discriminate.
  - reflexivity.
  - vm_compute. discriminate.
Defined.

Lemma one_clean_text_keeps_a_longest_witness :
  ∃ s : db_row, s ∈ no_pain_rows
    ∧ (s.1 ∉ find_duplicates plain_lower shipped_config no_pain_rows)
    ∧ (∀ r : db_row, r ∈ no_pain_rows → length r.2 ≤ length s.2)
    ∧ ((Z.of_nat (length no_pain_rows) ≤ WINDOW_SIZE shipped_config + 1)%Z →
       ∀ r : db_row, r ∈ no_pain_rows → r.1 ≠ s.1 →
         r.1 ∈ find_duplicates plain_lower shipped_config no_pain_rows).
Proof.
  apply (one_clean_text_keeps_a_longest plain_lower shipped_config no_pain_rows
           (of_string "nopainnogain")).
  - discriminate.
  - apply (bool_decide_unpack _). vm_compute. exact I.
  - intros r Hr. apply elem_of_cons in Hr as [-> | Hr]; [reflexivity|].
    apply elem_of_cons in Hr as [-> | Hr]; [reflexivity|].
    by apply not_elem_of_nil in Hr.
Defined.

Lemma statements_are_bounded_witness :
  executed (pass plain_lower shipped_config dogs_rows (of_string "YES")) ≠ []
  ∧ Forall (λ stmt, 0 < length stmt ≤ 900)
      (executed (pass plain_lower shipped_config dogs_rows (of_string "YES")))
  ∧ NoDup (concat (executed (pass plain_lower shipped_config dogs_rows (of_string "YES"))))
  ∧ list_to_set (C := gset Z)
      (concat (executed (pass plain_lower shipped_config dogs_rows (of_string "YES"))))
    = find_duplicates plain_lower shipped_config dogs_rows.
Proof.
  split; [vm_compute; discriminate|].
  destruct (statements_are_bounded plain_lower shipped_config dogs_rows (of_string "YES"))
    as (Hsize & Hnodup & Hids).
  split; [exact Hsize|]. split; [exact Hnodup|].
  apply set_eq. intros x. rewrite elem_of_list_to_set.
  apply Hids. vm_compute. discriminate.
Defined.

Lemma rows_removed_is_count_witness :
  length (store_after (pass plain_lower shipped_config dogs_rows (of_string "YES")))
  + size (find_duplicates plain_lower shipped_config dogs_rows)
  = length dogs_rows.
Proof.
  apply (rows_removed_is_count plain_lower shipped_config dogs_rows (of_string "YES")).
  - apply (bool_decide_unpack _). vm_compute. exact I.
  - vm_compute. discriminate.
Defined.

Lemma two_close_rows_witness :
  find_duplicates plain_lower shipped_config
    [(1%Z, of_string "I love dogs"); (2%Z, of_string "I love dog")]
  = {[ 1%Z ]}.
Proof.
  refine (two_close_rows plain_lower shipped_config
            (1%Z, of_string "I love dogs") (2%Z, of_string "I love dog") _ _ _).
  - simpl. lia.
  - vm_compute. discriminate.
  - vm_compute. discriminate.
Defined.

Lemma arrival_order_is_immaterial_witness :
  find_duplicates plain_lower shipped_config cat_dog_rows
  = find_duplicates plain_lower shipped_config
      [(2%Z, of_string "dog"); (1%Z, of_string "cat")].
Proof.
  refine (arrival_order_is_immaterial plain_lower shipped_config cat_dog_rows
            [(2%Z, of_string "dog"); (1%Z, of_string "cat")] _ _).
  - apply (bool_decide_unpack _). vm_compute. exact I.
  - apply Permutation_swap.
Defined.
